(** * The persistence layer of vibematch-gallery (src/services/storageService.ts)

    A shallow embedding of the IndexedDB-backed storage service: the two
    object stores ("galleries" and "images", both with keyPath 'id'), the
    secondary indexes the service iterates ('galleryId', 'createdAt',
    'timestamp'), and every exported operation of the service.

    Modelling conventions.
    - An object store is a finite map from its primary key to the stored
      record ([gmap string _]).  [store.put r] inserts at the key read from
      the record's [id] field (keyPath 'id'), overwriting.
    - An index cursor visits the records of its key range ordered by index
      key and then by primary key; direction 'prev' visits them in the exact
      reverse order.  String keys are compared lexicographically.
    - [number] timestamps are the integer milliseconds of [Date.now()]: [Z].
    - Every [db.transaction(...)] of the source is one unit of work whose
      fate is decided by the environment: [Committed] (its writes become
      the new state, the success callback fires) or [Aborted] (its writes
      are rolled back, the error callback fires).  A failure of [openDB] is
      an [Aborted] unit as well: nothing is written and the promise rejects.
    - [Date.now()] and [Math.random()] are inputs of the operations that
      call them. *)

From Stdlib Require Import ZArith NArith String Ascii List Sorting.Sorted OrdersEx.
From stdpp Require Import gmap strings list fin_maps sorting.

Local Open Scope Z_scope.

(** ** Records (src/types.ts) *)

Record ImageDescription := {
  subject : string;
  colors : list string;
  style : string;
  mood : string;
  lighting : string;
  visualElements : list string;
}.

Module GalleryImage.
Record t := {
  id : string;
  galleryId : string;
  url : string;
  base64 : string;
  mimeType : string;
  description : ImageDescription;
  timestamp : Z;
}.
End GalleryImage.

Module Gallery.
Record t := {
  id : string;
  name : string;
  description : option string;
  coverImageId : option string;
  createdAt : Z;
  updatedAt : Z;
}.
End Gallery.

(** The database: the two object stores. *)
Record DB := {
  galleries : gmap string Gallery.t;
  images : gmap string GalleryImage.t;
}.

Definition emptyDB : DB := {| galleries := ∅; images := ∅ |}.

(** The fate of one unit of work, and the settlement of a promise. *)
Inductive txn_result := Committed | Aborted.

Inductive promise (A : Type) :=
  | Resolved (a : A)
  | Rejected.
Arguments Resolved {A} a.
Arguments Rejected {A}.

(** ** Key order of the engine *)

(** String keys compare lexicographically, character code by character code. *)
Definition key_le (a b : string) : Prop := String_as_OT.compare a b ≠ Gt.
Definition key_lt (a b : string) : Prop := String_as_OT.compare a b = Lt.

Global Instance key_le_dec a b : Decision (key_le a b).
Proof. unfold key_le. apply _. Defined.

Global Instance key_lt_dec a b : Decision (key_lt a b).
Proof. unfold key_lt. apply _. Defined.

Section Index.
Context {V : Type}.

(** Order of the entries of an index whose key is the integer [ikey] of
    the record: by index key, then by primary key. *)
Definition index_le (ikey : V → Z) (x y : string * V) : Prop :=
  ikey x.2 < ikey y.2 ∨ (ikey x.2 = ikey y.2 ∧ key_le x.1 y.1).

Global Instance index_le_dec ikey x y : Decision (index_le ikey x y).
Proof. unfold index_le. apply _. Defined.

(** Order of the entries inside one index key: by primary key. *)
Definition entry_le (x y : string * V) : Prop := key_le x.1 y.1.

Global Instance entry_le_dec x y : Decision (entry_le x y).
Proof. unfold entry_le. apply _. Defined.

(** [index.openCursor(null, 'prev')] on an integer-keyed index: every
    record, from the greatest (index key, primary key) down. *)
Definition openCursor_prev (ikey : V → Z) (store : gmap string V)
  : list (string * V) :=
  reverse (merge_sort (index_le ikey) (map_to_list store)).

(** The records an index on the string field [skey] holds under the key
    [k]: the range [IDBKeyRange.only(k)]. *)
Definition index_only (skey : V → string) (k : string)
    (store : gmap string V) : gmap string V :=
  filter (λ kv, skey kv.2 = k) store.

(** [index.openCursor(IDBKeyRange.only(k))]: the records of the range in
    ascending primary-key order. *)
Definition openCursor_only (skey : V → string) (k : string)
    (store : gmap string V) : list (string * V) :=
  merge_sort entry_le (map_to_list (index_only skey k store)).

(** [index.count(IDBKeyRange.only(k))]. *)
Definition index_count (skey : V → string) (k : string)
    (store : gmap string V) : nat :=
  size (index_only skey k store).
End Index.

(** ** Array.prototype.sort *)

(** The sort is stable: an element moves behind another only when the
    comparator is positive on the pair. *)
Fixpoint js_insert {A} (cmp : A → A → Z) (x : A) (l : list A) : list A :=
  match l with
  | [] => [x]
  | y :: l' => if cmp x y <=? 0 then x :: y :: l' else y :: js_insert cmp x l'
  end.

Definition js_sort {A} (cmp : A → A → Z) (l : list A) : list A :=
  foldr (js_insert cmp) [] l.

(** Newest first on the integer stamp [f], ties ordered by [tie]. *)
Definition newest_first {A} (f : A → Z) (tie : relation A) : relation A :=
  λ a b, f b < f a ∨ (f a = f b ∧ tie a b).

(** ** Identifier generation: [Math.random().toString(36).substr(2, 9)] *)

(** [Math.random()] yields a double of [0, 1) carrying 53 random bits: the
    fraction [m / 2^53].  The input [m] is reduced into that range. *)
Definition random_den : N := 2 ^ 53.

(** The radix-36 digits of the fraction [num / random_den], most
    significant first: the exact expansion, which ends when the remainder
    is zero.  An engine may print fewer digits (the shortest string that
    reads back as the same double), never more.  A digit consumes two of
    the 53 bits, so 27 digits of fuel reach the end ([frac_digits36_fuel]). *)
Fixpoint frac_digits36 (fuel : nat) (num : N) : list N :=
  match fuel with
  | O => []
  | S fuel' =>
      if (num =? 0)%N then []
      else (36 * num / random_den)%N
             :: frac_digits36 fuel' ((36 * num) mod random_den)%N
  end.

Definition digit36 (d : N) : ascii :=
  match String.get (N.to_nat d) "0123456789abcdefghijklmnopqrstuvwxyz" with
  | Some c => c
  | None => "0"%char
  end.

(** [x.toString(36)] for [x = m / 2^53] in [0, 1): ["0"] for zero, otherwise
    ["0."] followed by the fraction digits, with no trailing zeros. *)
Definition toString36 (m : N) : string :=
  let num := (m mod random_den)%N in
  if (num =? 0)%N then "0"%string
  else ("0." ++ string_of_list_ascii (digit36 <$> frac_digits36 27 num))%string.

(** [s.substr(start, len)]: at most [len] characters from offset [start]. *)
Definition substr (start len : nat) (s : string) : string :=
  String.substring start len s.

Definition generateId (m : N) : string := substr 2 9 (toString36 m).


(** ** Gallery functions *)

(** [createGallery(name, description)]; [rnd] is the value of
    [Math.random()], [now1] and [now2] the two readings of [Date.now()]. *)
Definition createGallery (db : DB) (rnd : N) (now1 now2 : Z)
    (name : string) (description : option string) (o : txn_result)
  : DB * promise Gallery.t :=
  let gallery := {|
    Gallery.id := generateId rnd;
    Gallery.name := name;
    Gallery.description := description;
    Gallery.coverImageId := None;
    Gallery.createdAt := now1;
    Gallery.updatedAt := now2;
  |} in
  match o with
  | Committed =>
      ({| galleries := <[Gallery.id gallery := gallery]> (galleries db);
          images := images db |},
       Resolved gallery)
  | Aborted => (db, Rejected)
  end.

(** [gallery.updatedAt = Date.now()]: every other field is the caller's. *)
Definition stamp (gallery : Gallery.t) (now : Z) : Gallery.t := {|
  Gallery.id := Gallery.id gallery;
  Gallery.name := Gallery.name gallery;
  Gallery.description := Gallery.description gallery;
  Gallery.coverImageId := Gallery.coverImageId gallery;
  Gallery.createdAt := Gallery.createdAt gallery;
  Gallery.updatedAt := now;
|}.

(** [updateGallery(gallery)]; [now] is the reading of [Date.now()]. *)
Definition updateGallery (db : DB) (gallery : Gallery.t) (now : Z)
    (o : txn_result) : DB * promise unit :=
  let gallery := stamp gallery now in
  match o with
  | Committed =>
      ({| galleries := <[Gallery.id gallery := gallery]> (galleries db);
          images := images db |},
       Resolved tt)
  | Aborted => (db, Rejected)
  end.

(** [loadAllGalleries()]: cursor over the 'createdAt' index, direction
    'prev', each value pushed in the order visited. *)
Definition allGalleries (db : DB) : list Gallery.t :=
  snd <$> openCursor_prev Gallery.createdAt (galleries db).

Definition loadAllGalleries (db : DB) (o : txn_result)
  : promise (list Gallery.t) :=
  match o with
  | Committed => Resolved (allGalleries db)
  | Aborted => Rejected
  end.

(** The result of [store.get(key)]: the record, or [undefined]. *)
Inductive idb_result (A : Type) :=
  | idb_undefined
  | idb_value (a : A).
Arguments idb_undefined {A}.
Arguments idb_value {A} a.

Definition store_get {V} (store : gmap string V) (key : string)
  : idb_result V :=
  match store !! key with
  | Some r => idb_value r
  | None => idb_undefined
  end.

(** [result || null] for a result that is a record (truthy) or
    [undefined]; [None] is JavaScript's [null]. *)
Definition or_null {A} (r : idb_result A) : option A :=
  match r with
  | idb_value a => Some a
  | idb_undefined => None
  end.

(** [loadGallery(galleryId)]. *)
Definition loadGallery (db : DB) (galleryId : string) (o : txn_result)
  : promise (option Gallery.t) :=
  match o with
  | Committed => Resolved (or_null (store_get (galleries db) galleryId))
  | Aborted => Rejected
  end.

(** [deleteGallery(galleryId)]: one transaction over both stores; the
    gallery is deleted, then the cursor over the 'galleryId' index deletes
    the record under it at every step. *)
Definition deleteGallery (db : DB) (galleryId : string) (o : txn_result)
  : DB * promise unit :=
  match o with
  | Committed =>
      let cursor :=
        openCursor_only GalleryImage.galleryId galleryId (images db) in
      ({| galleries := delete galleryId (galleries db);
          images := foldl (λ store kv, delete kv.1 store) (images db) cursor |},
       Resolved tt)
  | Aborted => (db, Rejected)
  end.

(** ** Image functions *)

(** [saveImage(image)]. *)
Definition saveImage (db : DB) (image : GalleryImage.t) (o : txn_result)
  : DB * promise unit :=
  match o with
  | Committed =>
      ({| galleries := galleries db;
          images := <[GalleryImage.id image := image]> (images db) |},
       Resolved tt)
  | Aborted => (db, Rejected)
  end.

(** [saveImages(images)]: one transaction, one [put] per element in array
    order. *)
Definition saveImages (db : DB) (imgs : list GalleryImage.t) (o : txn_result)
  : DB * promise unit :=
  match o with
  | Committed =>
      ({| galleries := galleries db;
          images := foldl (λ store image,
                             <[GalleryImage.id image := image]> store)
                          (images db) imgs |},
       Resolved tt)
  | Aborted => (db, Rejected)
  end.

(** [loadGalleryImages(galleryId)]: the values under the cursor are pushed
    in the order visited, then sorted with
    [(a, b) => b.timestamp - a.timestamp]. *)
Definition galleryImages (db : DB) (galleryId : string)
  : list GalleryImage.t :=
  js_sort (λ a b, GalleryImage.timestamp b - GalleryImage.timestamp a)
    (snd <$> openCursor_only GalleryImage.galleryId galleryId (images db)).

Definition loadGalleryImages (db : DB) (galleryId : string) (o : txn_result)
  : promise (list GalleryImage.t) :=
  match o with
  | Committed => Resolved (galleryImages db galleryId)
  | Aborted => Rejected
  end.

(** [loadAllImages()] (deprecated): cursor over the 'timestamp' index,
    direction 'prev'. *)
Definition loadAllImages (db : DB) (o : txn_result)
  : promise (list GalleryImage.t) :=
  match o with
  | Committed =>
      Resolved (snd <$> openCursor_prev GalleryImage.timestamp (images db))
  | Aborted => Rejected
  end.

(** [deleteImage(imageId)]. *)
Definition deleteImage (db : DB) (imageId : string) (o : txn_result)
  : DB * promise unit :=
  match o with
  | Committed =>
      ({| galleries := galleries db; images := delete imageId (images db) |},
       Resolved tt)
  | Aborted => (db, Rejected)
  end.

(** [clearAllImages()]. *)
Definition clearAllImages (db : DB) (o : txn_result) : DB * promise unit :=
  match o with
  | Committed => ({| galleries := galleries db; images := ∅ |}, Resolved tt)
  | Aborted => (db, Rejected)
  end.

(** [getGalleryImageCount(galleryId)]. *)
Definition getGalleryImageCount (db : DB) (galleryId : string)
    (o : txn_result) : promise nat :=
  match o with
  | Committed =>
      Resolved (index_count GalleryImage.galleryId galleryId (images db))
  | Aborted => Rejected
  end.

(** [getGalleryCoverImage(galleryId)]:
    [images.length > 0 ? images[0] : null] on the awaited result of
    [loadGalleryImages]; a rejection of the latter propagates. *)
Definition getGalleryCoverImage (db : DB) (galleryId : string)
    (o : txn_result) : promise (option GalleryImage.t) :=
  match loadGalleryImages db galleryId o with
  | Resolved imgs =>
      Resolved (if (0 <? length imgs)%nat then imgs !! 0%nat else None)
  | Rejected => Rejected
  end.

(** ** Histories of the service *)

(** One call of a mutating operation, with the inputs the environment
    supplies to it. *)
Inductive op :=
  | CreateGallery (rnd : N) (now1 now2 : Z) (name : string)
      (description : option string) (o : txn_result)
  | UpdateGallery (gallery : Gallery.t) (now : Z) (o : txn_result)
  | DeleteGallery (galleryId : string) (o : txn_result)
  | SaveImage (image : GalleryImage.t) (o : txn_result)
  | SaveImages (imgs : list GalleryImage.t) (o : txn_result)
  | DeleteImage (imageId : string) (o : txn_result)
  | ClearAllImages (o : txn_result).

Definition step (db : DB) (c : op) : DB :=
  match c with
  | CreateGallery rnd now1 now2 name description o =>
      (createGallery db rnd now1 now2 name description o).1
  | UpdateGallery gallery now o => (updateGallery db gallery now o).1
  | DeleteGallery galleryId o => (deleteGallery db galleryId o).1
  | SaveImage image o => (saveImage db image o).1
  | SaveImages imgs o => (saveImages db imgs o).1
  | DeleteImage imageId o => (deleteImage db imageId o).1
  | ClearAllImages o => (clearAllImages db o).1
  end.

(** The state after a history of calls, each awaited before the next. *)
Definition run (db : DB) (history : list op) : DB := foldl step db history.

(** Every record sits under the key read from its [id] field. *)
Definition keyed_by_id (db : DB) : Prop :=
  (∀ k g, galleries db !! k = Some g → Gallery.id g = k) ∧
  (∀ k r, images db !! k = Some r → GalleryImage.id r = k).

(** Scenario data. *)
Definition noDescription : ImageDescription := {|
  subject := ""; colors := []; style := ""; mood := ""; lighting := "";
  visualElements := [];
|}.

Definition mkImage (i g : string) (t : Z) : GalleryImage.t := {|
  GalleryImage.id := i; GalleryImage.galleryId := g;
  GalleryImage.url := ""; GalleryImage.base64 := "";
  GalleryImage.mimeType := "image/png";
  GalleryImage.description := noDescription;
  GalleryImage.timestamp := t;
|}.

(** ** Orders of the query results *)

(** Ties on the timestamp keep the cursor's order: ascending [id]. *)
Definition image_order : relation GalleryImage.t :=
  newest_first GalleryImage.timestamp
    (λ a b, key_lt (GalleryImage.id a) (GalleryImage.id b)).

(** Ties on [createdAt]: descending [id], the cursor runs backwards. *)
Definition gallery_order : relation Gallery.t :=
  newest_first Gallery.createdAt
    (λ a b, key_lt (Gallery.id b) (Gallery.id a)).

(** A get by id on the image's own id returns exactly that record. *)
Definition visible (db : DB) (r : GalleryImage.t) : Prop :=
  store_get (images db) (GalleryImage.id r) = idb_value r.

(** A call [updateGallery(gallery)] with its clock reading and its fate. *)
Definition update_call : Type := Gallery.t * Z * txn_result.

Definition call_gallery (c : update_call) : Gallery.t := c.1.1.
Definition call_now (c : update_call) : Z := c.1.2.

(** The record stored under [gid] after each call of a sequence of
    [updateGallery] calls, each awaited before the next. *)
Fixpoint stored_after (db : DB) (gid : string) (calls : list update_call)
  : list (option Gallery.t) :=
  match calls with
  | [] => []
  | (gallery, now, o) :: calls' =>
      let db' := (updateGallery db gallery now o).1 in
      galleries db' !! gid :: stored_after db' gid calls'
  end.

(** The scenario of the specification: a gallery "Trip" holding three
    images with ascending timestamps, next to a gallery "Home" with one. *)
Definition tripGallery (gid : string) : Gallery.t := {|
  Gallery.id := gid; Gallery.name := gid; Gallery.description := None;
  Gallery.coverImageId := None; Gallery.createdAt := 0; Gallery.updatedAt := 0;
|}.

Definition tripDB : DB :=
  run emptyDB [
    UpdateGallery (tripGallery "Trip") 10 Committed;
    UpdateGallery (tripGallery "Home") 11 Committed;
    SaveImages [mkImage "a" "Trip" 21; mkImage "b" "Trip" 22;
                mkImage "c" "Trip" 23] Committed;
    SaveImage (mkImage "h" "Home" 24) Committed
  ].

(** ** Opening the database (openDB) *)

Definition DB_VERSION : N := 2.
Definition IMAGES_STORE : string := "images".
Definition GALLERIES_STORE : string := "galleries".

(** The schema of the database: the index names of every object store
    (every store of this service has keyPath 'id', every index is named
    after its key path and is not unique).  [transaction] tells whether
    [request.transaction] is set when the handler runs. *)
Definition onupgradeneeded (objectStores : gmap string (gset string))
    (transaction : bool) : gmap string (gset string) :=
  let withImages :=
    match objectStores !! IMAGES_STORE with
    | None =>
        <[IMAGES_STORE := {["timestamp"; "galleryId"]}]> objectStores
    | Some indexNames =>
        if transaction then
          if bool_decide ("galleryId" ∈ indexNames) then objectStores
          else <[IMAGES_STORE := indexNames ∪ {["galleryId"]}]> objectStores
        else objectStores
    end in
  match withImages !! GALLERIES_STORE with
  | None => <[GALLERIES_STORE := {["createdAt"]}]> withImages
  | Some _ => withImages
  end.

(** The module variable [dbInstance] (set or not) and the database of the
    origin: its version (0 when it does not exist yet) and its schema. *)
Record Session := {
  dbInstance : bool;
  storedVersion : N;
  objectStores : gmap string (gset string);
}.

(** What the engine does with [indexedDB.open]: it fails (no storage, a
    broken database), or it proceeds. *)
Inductive open_event := OpenFails | OpenProceeds.

(** [openDB()]: the cached instance if there is one; otherwise
    [indexedDB.open(DB_NAME, DB_VERSION)], which errors on a database of a
    later version, runs the upgrade handler on one of an earlier version,
    and caches the connection on success. *)
Definition openDB (s : Session) (e : open_event) : Session * promise unit :=
  if dbInstance s then (s, Resolved tt)
  else
    match e with
    | OpenFails => (s, Rejected)
    | OpenProceeds =>
        if (DB_VERSION <? storedVersion s)%N then (s, Rejected)
        else
          ({| dbInstance := true;
              storedVersion := DB_VERSION;
              objectStores :=
                if (storedVersion s <? DB_VERSION)%N
                then onupgradeneeded (objectStores s) true
                else objectStores s |},
           Resolved tt)
    end.

(** ** Callers of the service *)

(** *** GalleryView: the list of images on screen next to the store *)





(** *** ImageEditorModal: the record built by [handleEdit] *)


(** *** GalleryOverview: the list of galleries on screen *)

Record GalleryWithMeta := {
  gallery : Gallery.t;
  imageCount : nat;
  coverImage : option GalleryImage.t;
}.

(** [Promise.all]: the list of the values, or a rejection if one rejects. *)
Fixpoint promise_all {A} (ps : list (promise A)) : promise (list A) :=
  match ps with
  | [] => Resolved []
  | Resolved a :: ps' =>
      match promise_all ps' with
      | Resolved l => Resolved (a :: l)
      | Rejected => Rejected
      end
  | Rejected :: _ => Rejected
  end.

(** The callback of [allGalleries.map] in [loadGalleries]; [oCount] and
    [oCover] give the fate of the two reads made for a gallery id. *)
Definition withMeta (db : DB) (oCount oCover : string → txn_result)
    (g : Gallery.t) : promise GalleryWithMeta :=
  match getGalleryImageCount db (Gallery.id g) (oCount (Gallery.id g)) with
  | Rejected => Rejected
  | Resolved n =>
      match getGalleryCoverImage db (Gallery.id g) (oCover (Gallery.id g)) with
      | Rejected => Rejected
      | Resolved c =>
          Resolved {| gallery := g; imageCount := n; coverImage := c |}
      end
  end.

(** [loadGalleries()]: the new list on screen; any rejection is caught and
    leaves the list [shown] as it is. *)
Definition loadGalleries (db : DB) (shown : list GalleryWithMeta)
    (o : txn_result) (oCount oCover : string → txn_result)
  : list GalleryWithMeta :=
  match loadAllGalleries db o with
  | Rejected => shown
  | Resolved gs =>
      match promise_all (withMeta db oCount oCover <$> gs) with
      | Resolved withMetas => withMetas
      | Rejected => shown
      end
  end.


(** [handleDeleteGallery(galleryId)]. *)
Definition handleDeleteGallery (db : DB) (shown : list GalleryWithMeta)
    (galleryId : string) (o : txn_result) : DB * list GalleryWithMeta :=
  match deleteGallery db galleryId o with
  | (db', Resolved _) =>
      (db', filter (λ g, Gallery.id (gallery g) ≠ galleryId) shown)
  | (db', Rejected) => (db', shown)
  end.

(** *** ImageGeneratorModal: the selected reference images *)

(** [toggleRef(id)] on the previous selection. *)
Definition toggleRef (prev : list string) (id : string) : list string :=
  if bool_decide (id ∈ prev) then filter (λ i, i ≠ id) prev
  else if (length prev <? 3)%nat then prev ++ [id]
  else prev.

(** [galleryImages.filter((img) => selectedRefs.includes(img.id))] in
    [handleGenerate]. *)
Definition refImages (galleryImages : list GalleryImage.t)
    (selectedRefs : list string) : list GalleryImage.t :=
  filter (λ img, GalleryImage.id img ∈ selectedRefs) galleryImages.

(** [referenceImages[0]] in [generateThemedImage]. *)
Definition primaryRef (referenceImages : list GalleryImage.t)
  : option GalleryImage.t :=
  referenceImages !! 0%nat.

(** *** ImageViewerModal: the name of the downloaded file *)




(** Whether the record stored under a key, if any, counts for gallery [G]. *)
Definition owned_by (G : string) (stored : option GalleryImage.t) : nat :=
  match stored with
  | Some r => if decide (GalleryImage.galleryId r = G) then 1 else 0
  | None => 0
  end.

(** Ties of the deprecated all-images query: descending [id]. *)
Definition all_images_order : relation GalleryImage.t :=
  newest_first GalleryImage.timestamp
    (λ a b, key_lt (GalleryImage.id b) (GalleryImage.id a)).

(** What the overview shows after [loadGalleries()] when every read goes
    through. *)
Definition overview (db : DB) : list GalleryWithMeta :=
  loadGalleries db [] Committed (λ _, Committed) (λ _, Committed).

(** The entry of the overview for a gallery: its count and its cover. *)
Definition metaOf (db : DB) (g : Gallery.t) : GalleryWithMeta := {|
  gallery := g;
  imageCount := index_count GalleryImage.galleryId (Gallery.id g) (images db);
  coverImage := head (galleryImages db (Gallery.id g));
|}.

(** *** GalleryView: renaming the gallery *)

(** [handleSaveTitle()] in the view of [gallery]; [trimmed] is
    [editedName.trim()].  The record passed on is [{ ...gallery, name }]. *)
Definition handleSaveTitle (db : DB) (gallery : Gallery.t)
    (editedName trimmed : string) (now : Z) (o : txn_result)
  : DB * promise unit :=
  if decide (trimmed ≠ ""%string ∧ editedName ≠ Gallery.name gallery) then
    updateGallery db
      {| Gallery.id := Gallery.id gallery;
         Gallery.name := trimmed;
         Gallery.description := Gallery.description gallery;
         Gallery.coverImageId := Gallery.coverImageId gallery;
         Gallery.createdAt := Gallery.createdAt gallery;
         Gallery.updatedAt := Gallery.updatedAt gallery |} now o
  else (db, Resolved tt).

(** * Properties *)

(** ** The key order is a total order *)

Lemma key_lt_irrefl a : ¬ key_lt a a.
Proof. apply (irreflexivity String_as_OT.lt). Qed.

Lemma key_lt_trans a b c : key_lt a b → key_lt b c → key_lt a c.
Proof. apply (transitivity (R := String_as_OT.lt)). Qed.

Lemma key_le_alt a b : key_le a b ↔ a = b ∨ key_lt a b.
Proof.
  unfold key_le, key_lt.
  destruct (String_as_OT.compare_spec a b) as [Heq|Hlt|Hgt]; split; intros H;
    try (by left); try (by right); try done.
  destruct H as [->|H]; [by apply key_lt_irrefl in Hgt | discriminate].
Qed.

Lemma key_lt_or_ge a b : key_lt a b ∨ key_le b a.
Proof.
  destruct (String_as_OT.compare_spec a b) as [Heq|Hlt|Hgt].
  - right. apply key_le_alt. by left.
  - by left.
  - right. apply key_le_alt. by right.
Qed.

Global Instance key_le_refl : Reflexive key_le.
Proof. intros a. apply key_le_alt. by left. Qed.

Global Instance key_le_trans : Transitive key_le.
Proof.
  intros a b c [->|Hab]%key_le_alt [->|Hbc]%key_le_alt; apply key_le_alt;
    eauto using key_lt_trans.
Qed.

Global Instance key_le_total : Total key_le.
Proof.
  intros a b. destruct (key_lt_or_ge a b) as [H|H]; [left|by right].
  apply key_le_alt. by right.
Qed.

Global Instance key_le_antisym : AntiSymm (=) key_le.
Proof.
  intros a b [->|Hab]%key_le_alt [Heq|Hba]%key_le_alt; try done.
  destruct (key_lt_irrefl a). eauto using key_lt_trans.
Qed.

Lemma key_le_ne_lt a b : key_le a b → a ≠ b → key_lt a b.
Proof. intros [->|H]%key_le_alt ?; done. Qed.

Section IndexOrder.
Context {V : Type}.

Global Instance entry_le_trans : Transitive (@entry_le V).
Proof. intros x y z. unfold entry_le. apply key_le_trans. Qed.

Global Instance entry_le_total : Total (@entry_le V).
Proof. intros x y. unfold entry_le. apply key_le_total. Qed.

Global Instance index_le_trans (ikey : V → Z) : Transitive (index_le ikey).
Proof.
  intros x y z [Hxy|[Hxy Kxy]] [Hyz|[Hyz Kyz]]; unfold index_le;
    try (left; lia).
  right. split; [lia|]. by etrans.
Qed.

Global Instance index_le_total (ikey : V → Z) : Total (index_le ikey).
Proof.
  intros x y. unfold index_le.
  destruct (Z.lt_trichotomy (ikey x.2) (ikey y.2)) as [H|[H|H]].
  - left. by left.
  - destruct (key_le_total x.1 y.1); [left|right]; right; split; done.
  - right. by left.
Qed.
End IndexOrder.

(** ** What a cursor visits *)

Section CursorFacts.
Context {V : Type}.
Implicit Types (store : gmap string V) (kv : string * V).

Lemma index_only_lookup (skey : V → string) k store i r :
  index_only skey k store !! i = Some r ↔ store !! i = Some r ∧ skey r = k.
Proof. unfold index_only. by rewrite map_lookup_filter_Some. Qed.

Lemma openCursor_only_Permutation (skey : V → string) k store :
  openCursor_only skey k store ≡ₚ map_to_list (index_only skey k store).
Proof. apply merge_sort_Permutation. Qed.

Lemma elem_of_openCursor_only (skey : V → string) k store i r :
  (i, r) ∈ openCursor_only skey k store ↔
  store !! i = Some r ∧ skey r = k.
Proof.
  rewrite openCursor_only_Permutation, elem_of_map_to_list.
  apply index_only_lookup.
Qed.

Lemma openCursor_only_NoDup_keys (skey : V → string) k store :
  NoDup (openCursor_only skey k store).*1.
Proof.
  rewrite openCursor_only_Permutation. apply NoDup_fst_map_to_list.
Qed.

Lemma openCursor_only_length (skey : V → string) k store :
  length (openCursor_only skey k store) = index_count skey k store.
Proof.
  rewrite openCursor_only_Permutation. unfold index_count.
  by rewrite length_map_to_list.
Qed.

Lemma openCursor_only_sorted (skey : V → string) k store :
  StronglySorted entry_le (openCursor_only skey k store).
Proof. apply (StronglySorted_merge_sort _). Qed.

Lemma openCursor_prev_Permutation (ikey : V → Z) store :
  openCursor_prev ikey store ≡ₚ map_to_list store.
Proof.
  unfold openCursor_prev. by rewrite reverse_Permutation, merge_sort_Permutation.
Qed.

Lemma openCursor_prev_sorted (ikey : V → Z) store :
  StronglySorted (flip (index_le ikey)) (openCursor_prev ikey store).
Proof.
  apply Sorted_StronglySorted; [apply _|].
  apply Sorted_reverse, (Sorted_merge_sort _).
Qed.

(** A cursor loop that deletes the record under the cursor removes
    exactly the visited primary keys. *)
Lemma lookup_cursor_delete (visited : list (string * V)) store i :
  foldl (λ s kv, delete kv.1 s) store visited !! i =
  if decide (i ∈ visited.*1) then None else store !! i.
Proof.
  revert store. induction visited as [|[k v] visited IH]; intros store.
  - destruct (decide (i ∈ [].*1)) as [H|_]; [by apply elem_of_nil in H|done].
  - cbn [foldl]. rewrite IH, fmap_cons. cbn [fst].
    destruct (decide (i ∈ visited.*1)) as [Hin|Hout],
             (decide (i ∈ k :: visited.*1)) as [Hin'|Hout']; try done.
    + destruct Hout'. apply elem_of_cons. by right.
    + apply elem_of_cons in Hin' as [->|Hin']; [apply lookup_delete_eq|done].
    + apply not_elem_of_cons in Hout' as [Hne _]. by rewrite lookup_delete_ne.
Qed.
End CursorFacts.

(** ** The stable sort *)

Lemma StronglySorted_weaken {A} (R1 R2 : relation A) l :
  (∀ a b, R1 a b → R2 a b) → StronglySorted R1 l → StronglySorted R2 l.
Proof.
  intros HR. induction 1 as [|x l Hl IH Hx]; constructor; [done|].
  eapply Forall_impl; [exact Hx | auto].
Qed.

Section JsSort.
Context {A : Type} (f : A → Z) (tie : relation A).

(** The comparator [(a, b) => f(b) - f(a)]. *)
Let cmp (a b : A) : Z := f b - f a.

Lemma js_insert_Permutation (c : A → A → Z) x l : js_insert c x l ≡ₚ x :: l.
Proof.
  induction l as [|y l IH]; simpl; [done|].
  destruct (c x y <=? 0); [done|]. rewrite IH. apply Permutation_swap.
Qed.

Lemma js_sort_Permutation (c : A → A → Z) l : js_sort c l ≡ₚ l.
Proof.
  induction l as [|x l IH]; simpl; [done|].
  by rewrite js_insert_Permutation, IH.
Qed.

Lemma js_sort_length (c : A → A → Z) l : length (js_sort c l) = length l.
Proof. by rewrite js_sort_Permutation. Qed.

Lemma js_insert_sorted x l :
  Forall (tie x) l →
  StronglySorted (newest_first f tie) l →
  StronglySorted (newest_first f tie) (js_insert cmp x l).
Proof.
  intros Hx Hl. induction Hl as [|y l Hl IH Hy]; simpl.
  - repeat constructor.
  - apply Forall_cons in Hx as [Hxy Hx]. unfold cmp at 1.
    destruct (Z.leb_spec (f y - f x) 0) as [Hle|Hgt].
    + constructor; [by constructor|].
      assert (newest_first f tie x y) as Hnxy.
      { unfold newest_first. destruct (decide (f y = f x)); [right|left]; [done|lia]. }
      constructor; [done|].
      apply Forall_forall. intros z Hz.
      pose proof (proj1 (Forall_forall _ _) Hy z Hz) as Hyz.
      pose proof (proj1 (Forall_forall _ _) Hx z Hz) as Hxz.
      unfold newest_first in *.
      destruct (decide (f z = f x)); [right|left]; [done|lia].
    + constructor; [by apply IH|].
      rewrite js_insert_Permutation. constructor; [|done].
      left. lia.
Qed.

Lemma js_sort_sorted l :
  StronglySorted tie l →
  StronglySorted (newest_first f tie) (js_sort cmp l).
Proof.
  induction 1 as [|x l Hl IH Hx]; simpl; [constructor|].
  apply js_insert_sorted; [|done]. by rewrite js_sort_Permutation.
Qed.
End JsSort.

Lemma StronglySorted_values {V} (R1 : relation (string * V)) (R2 : relation V)
    (P : string * V → Prop) (l : list (string * V)) :
  (∀ x y, P x → P y → x.1 ≠ y.1 → R1 x y → R2 x.2 y.2) →
  Forall P l → NoDup l.*1 → StronglySorted R1 l → StronglySorted R2 l.*2.
Proof.
  intros HR HP Hnd Hs. induction Hs as [|x l Hs IH Hx]; csimpl; [constructor|].
  apply Forall_cons in HP as [HPx HP]. apply NoDup_cons in Hnd as [Hnx Hnd].
  constructor; [by apply IH|].
  apply Forall_fmap, Forall_forall. intros y Hy. simpl.
  apply HR; try done.
  - by apply (proj1 (Forall_forall _ _) HP).
  - intros Heq. apply Hnx. rewrite Heq. by apply list_elem_of_fmap_2.
  - by apply (proj1 (Forall_forall _ _) Hx).
Qed.

(** ** Records stay under the key of their [id] field *)

Lemma lookup_put_all (imgs : list GalleryImage.t)
    (store : gmap string GalleryImage.t) i r :
  foldl (λ s image, <[GalleryImage.id image := image]> s) store imgs !! i
    = Some r →
  (r ∈ imgs ∧ GalleryImage.id r = i) ∨ store !! i = Some r.
Proof.
  revert store. induction imgs as [|x imgs IH]; intros store; simpl; [by right|].
  intros [[Hin Hid]|Hst]%IH.
  - left. split; [|done]. apply elem_of_cons. by right.
  - apply lookup_insert_Some in Hst as [[Hk <-]|[_ Hst]]; [|by right].
    left. split; [|done]. apply elem_of_cons. by left.
Qed.

Lemma keyed_by_id_step db c : keyed_by_id db → keyed_by_id (step db c).
Proof.
  intros [Hg Hi].
  destruct c as [rnd n1 n2 nm ds o|g now o|G o|r o|l o|i o|o]; destruct o;
    try (by split); split; simpl; try done.
  - intros k g [[<- <-]|[_ H]]%lookup_insert_Some; [done | by apply Hg].
  - intros k g' [[<- <-]|[_ H]]%lookup_insert_Some; [done | by apply Hg].
  - intros k g [_ H]%lookup_delete_Some. by apply Hg.
  - intros k r. rewrite lookup_cursor_delete.
    destruct (decide (k ∈ _)); [done | apply Hi].
  - intros k r' [[<- <-]|[_ H]]%lookup_insert_Some; [done | by apply Hi].
  - intros k r [[_ H]|H]%lookup_put_all; [done | by apply Hi].
  - intros k r [_ H]%lookup_delete_Some. by apply Hi.
Qed.

Lemma keyed_by_id_run db history :
  keyed_by_id db → keyed_by_id (run db history).
Proof.
  revert db. induction history as [|c history IH]; intros db H; [done|].
  apply IH, keyed_by_id_step, H.
Qed.

Lemma keyed_by_id_empty : keyed_by_id emptyDB.
Proof. split; intros k x H; cbn in H; by rewrite lookup_empty in H. Qed.

(** ** The gallery-scoped image query *)

Lemma elem_of_galleryImages db G r :
  r ∈ galleryImages db G ↔
  ∃ i, images db !! i = Some r ∧ GalleryImage.galleryId r = G.
Proof.
  unfold galleryImages. rewrite js_sort_Permutation, list_elem_of_fmap.
  split.
  - intros [[i r'] [-> H]]. exists i. by apply elem_of_openCursor_only in H.
  - intros [i H]. exists (i, r). split; [done|].
    by apply elem_of_openCursor_only.
Qed.

Lemma galleryImages_length db G :
  length (galleryImages db G) =
  index_count GalleryImage.galleryId G (images db).
Proof.
  unfold galleryImages.
  by rewrite js_sort_length, length_fmap, openCursor_only_length.
Qed.

Lemma galleryImages_sorted db G :
  keyed_by_id db → StronglySorted image_order (galleryImages db G).
Proof.
  intros [_ Hi]. unfold galleryImages, image_order.
  apply js_sort_sorted.
  eapply (StronglySorted_values entry_le _
            (λ kv, GalleryImage.id kv.2 = kv.1)).
  - intros x y -> -> Hne Hle. by apply key_le_ne_lt.
  - apply Forall_forall. intros [i r] [H _]%elem_of_openCursor_only.
    by apply Hi.
  - apply openCursor_only_NoDup_keys.
  - apply openCursor_only_sorted.
Qed.

Lemma allGalleries_Permutation db :
  allGalleries db ≡ₚ (map_to_list (galleries db)).*2.
Proof. unfold allGalleries. by rewrite openCursor_prev_Permutation. Qed.

Lemma allGalleries_sorted db :
  keyed_by_id db → StronglySorted gallery_order (allGalleries db).
Proof.
  intros [Hg _]. unfold allGalleries, gallery_order.
  eapply (StronglySorted_values (flip (index_le Gallery.createdAt)) _
            (λ kv, Gallery.id kv.2 = kv.1)).
  - intros x y Hx Hy Hne [Hlt|[Heq Hle]]; [by left|right].
    split; [done|]. rewrite Hx, Hy. apply key_le_ne_lt; [done|congruence].
  - apply Forall_forall. intros [i g] H.
    rewrite openCursor_prev_Permutation in H.
    apply elem_of_map_to_list in H. by apply Hg.
  - rewrite openCursor_prev_Permutation. apply NoDup_fst_map_to_list.
  - apply openCursor_prev_sorted.
Qed.

Lemma StronglySorted_any {A} (l : list A) : StronglySorted (λ _ _, True) l.
Proof. induction l; constructor; [done|]. by apply Forall_forall. Qed.

(** Newest first holds in every state, whatever the keys are. *)
Lemma galleryImages_descending db G :
  StronglySorted
    (λ a b, GalleryImage.timestamp a >= GalleryImage.timestamp b)
    (galleryImages db G).
Proof.
  eapply StronglySorted_weaken;
    [|apply (js_sort_sorted GalleryImage.timestamp (λ _ _, True)),
             StronglySorted_any].
  intros a b [H|[H _]]; lia.
Qed.

Lemma allGalleries_descending db :
  StronglySorted (λ a b, Gallery.createdAt a >= Gallery.createdAt b)
    (allGalleries db).
Proof.
  unfold allGalleries.
  eapply StronglySorted_fmap; [|apply openCursor_prev_sorted].
  intros x y [H|[H _]]; simpl; lia.
Qed.

(** ** Cascading delete *)

Lemma deleteGallery_images_lookup db G i :
  images (deleteGallery db G Committed).1 !! i =
  match images db !! i with
  | Some r => if decide (GalleryImage.galleryId r = G) then None else Some r
  | None => None
  end.
Proof.
  simpl. rewrite lookup_cursor_delete.
  destruct (decide (i ∈ _)) as [Hin|Hout].
  - apply list_elem_of_fmap in Hin as [[i' r] [-> Hin]].
    apply elem_of_openCursor_only in Hin as [Hr Hg]. cbn [fst].
    rewrite Hr. by rewrite decide_True.
  - destruct (images db !! i) as [r|] eqn:Hr; [|done].
    destruct (decide (GalleryImage.galleryId r = G)) as [Hg|]; [|done].
    destruct Hout. apply list_elem_of_fmap. exists (i, r). split; [done|].
    by apply elem_of_openCursor_only.
Qed.

Lemma galleryImages_nil db G :
  (∀ i r, images db !! i = Some r → GalleryImage.galleryId r ≠ G) →
  galleryImages db G = [].
Proof.
  intros H. apply elem_of_nil_inv. intros r [i [Hr Hg]]%elem_of_galleryImages.
  by apply (H i r).
Qed.

(** C1. [deleteGallery(G)] is one unit of work.  When it commits the promise
    resolves, a get of the gallery G finds nothing, [loadGalleryImages(G)]
    is the empty list and a get by id of every image that G owned finds
    nothing; when it aborts the promise rejects and the database is the one
    before the call. *)
Theorem deleteGallery_cascade (db : DB) (G : string) :
  (deleteGallery db G Committed).2 = Resolved tt ∧
  loadGallery (deleteGallery db G Committed).1 G Committed = Resolved None ∧
  loadGalleryImages (deleteGallery db G Committed).1 G Committed
    = Resolved [] ∧
  (∀ i r, images db !! i = Some r → GalleryImage.galleryId r = G →
          store_get (images (deleteGallery db G Committed).1) i
            = idb_undefined) ∧
  deleteGallery db G Aborted = (db, Rejected).
Proof.
  split; [done|]. split.
  { unfold loadGallery, store_get. simpl. by rewrite lookup_delete_eq. }
  split.
  { unfold loadGalleryImages. f_equal. apply galleryImages_nil.
    intros i r. rewrite deleteGallery_images_lookup.
    destruct (images db !! i) as [r'|]; [|done].
    destruct (decide _); [done|]. by intros [= <-]. }
  split; [|done].
  intros i r Hr Hg. unfold store_get.
  rewrite deleteGallery_images_lookup, Hr. by rewrite decide_True.
Qed.

Lemma deleteGallery_cascade_witness :
  store_get (images (deleteGallery tripDB "Trip" Committed).1) "b"
    = idb_undefined.
Proof.
  apply (proj1 (proj2 (proj2 (proj2 (deleteGallery_cascade tripDB "Trip")))))
    with (r := mkImage "b" "Trip" 22).
  - vm_compute. reflexivity.
  - reflexivity.
Defined.

(** C9. [deleteGallery(G)] touches nothing outside G's ownership: every
    gallery stored under another id is still there, unchanged, and every
    image whose [galleryId] is not G is still stored, unchanged, under its
    key, whether the unit of work commits or aborts. *)
Theorem deleteGallery_frame (db : DB) (G : string) (o : txn_result) :
  (∀ H, H ≠ G →
        galleries (deleteGallery db G o).1 !! H = galleries db !! H) ∧
  (∀ i r, images db !! i = Some r → GalleryImage.galleryId r ≠ G →
          images (deleteGallery db G o).1 !! i = Some r).
Proof.
  destruct o; [|by split]. split.
  - intros H Hne. simpl. by rewrite lookup_delete_ne.
  - intros i r Hr Hg. rewrite deleteGallery_images_lookup, Hr.
    by rewrite decide_False.
Qed.

Lemma deleteGallery_frame_witness :
  galleries (deleteGallery tripDB "Trip" Committed).1 !! "Home"
    = galleries tripDB !! "Home" ∧
  images (deleteGallery tripDB "Trip" Committed).1 !! "h"
    = Some (mkImage "h" "Home" 24).
Proof.
  split.
  - apply (proj1 (deleteGallery_frame tripDB "Trip" Committed)).
    discriminate.
  - apply (proj2 (deleteGallery_frame tripDB "Trip" Committed)).
    + vm_compute. reflexivity.
    + discriminate.
Defined.

(** C10. [clearAllImages()] empties the images store of every gallery: once
    it has committed, [loadGalleryImages(g)] is the empty list and
    [getGalleryImageCount(g)] is 0 for every gallery id g, and the
    galleries store is the one before the call. *)
Theorem clearAllImages_spec (db : DB) (g : string) :
  (clearAllImages db Committed).2 = Resolved tt ∧
  images (clearAllImages db Committed).1 = ∅ ∧
  loadGalleryImages (clearAllImages db Committed).1 g Committed
    = Resolved [] ∧
  getGalleryImageCount (clearAllImages db Committed).1 g Committed
    = Resolved 0%nat ∧
  galleries (clearAllImages db Committed).1 = galleries db.
Proof.
  split; [done|]. split; [done|]. split.
  { unfold loadGalleryImages.
    rewrite (galleryImages_nil (clearAllImages db Committed).1 g); [done|].
    intros i r H. cbn [clearAllImages fst images] in H.
    by rewrite lookup_empty in H. }
  split; [|done].
  unfold getGalleryImageCount, index_count, index_only. simpl.
  by rewrite map_filter_empty, map_size_empty.
Qed.

(** C8. [loadGallery(id)] for an id absent from the galleries store
    resolves with [null]; the promise rejects exactly when the read
    transaction errors. *)
Theorem loadGallery_absent (db : DB) (galleryId : string) :
  galleries db !! galleryId = None →
  loadGallery db galleryId Committed = Resolved None ∧
  (∀ o, loadGallery db galleryId o = Rejected ↔ o = Aborted).
Proof.
  intros H. unfold loadGallery, store_get. rewrite H. split; [done|].
  intros []; split; intros; done.
Qed.

Lemma loadGallery_absent_witness :
  loadGallery tripDB "Paris" Committed = Resolved None.
Proof.
  apply (proj1 (loadGallery_absent tripDB "Paris" ltac:(vm_compute; reflexivity))).
Defined.

(** C3. In every state (so in every state reached from the empty database,
    and before and after every mutating operation of the service)
    [getGalleryImageCount(G)] is the length of the list
    [loadGalleryImages(G)] returns. *)
Theorem count_consistency (db : DB) (history : list op) (G : string) :
  ∃ imgs,
    loadGalleryImages (run db history) G Committed = Resolved imgs ∧
    getGalleryImageCount (run db history) G Committed
      = Resolved (length imgs).
Proof.
  exists (galleryImages (run db history) G). split; [done|].
  unfold getGalleryImageCount. by rewrite galleryImages_length.
Qed.

(** C5. After every history of mutations, [getGalleryCoverImage(G)] is the
    head of the list [loadGalleryImages(G)] returns, [null] when that list
    is empty; it reads the images store only, so no stored gallery field
    takes part, and the cover is an image of G that no image of G is newer
    than. *)
Theorem cover_derivation (db : DB) (history : list op) (G : string) :
  let db' := run db history in
  getGalleryCoverImage db' G Committed = Resolved (head (galleryImages db' G)) ∧
  (galleryImages db' G = [] →
   getGalleryCoverImage db' G Committed = Resolved None) ∧
  (∀ gs, getGalleryCoverImage {| galleries := gs; images := images db' |} G
           Committed = getGalleryCoverImage db' G Committed) ∧
  (∀ c, getGalleryCoverImage db' G Committed = Resolved (Some c) →
        c ∈ galleryImages db' G ∧
        ∀ r, r ∈ galleryImages db' G →
             GalleryImage.timestamp r <= GalleryImage.timestamp c).
Proof.
  intros db'.
  assert (getGalleryCoverImage db' G Committed
          = Resolved (head (galleryImages db' G))) as Hhead.
  { unfold getGalleryCoverImage, loadGalleryImages.
    by destruct (galleryImages db' G). }
  split; [done|]. split; [by intros H; rewrite Hhead, H|]. split; [done|].
  intros c. rewrite Hhead. intros [= Hc].
  pose proof (galleryImages_descending db' G) as Hs.
  destruct (galleryImages db' G) as [|x l]; [done|].
  simpl in Hc. injection Hc as ->.
  split; [by left|].
  intros r [->|Hr]%elem_of_cons; [lia|].
  apply StronglySorted_cons in Hs as [Hc _].
  pose proof (proj1 (Forall_forall _ _) Hc r Hr). simpl in *. lia.
Qed.

Lemma cover_derivation_witness :
  getGalleryCoverImage tripDB "Trip" Committed
    = Resolved (Some (mkImage "c" "Trip" 23)) ∧
  GalleryImage.timestamp (mkImage "a" "Trip" 21) <= 23.
Proof.
  assert (getGalleryCoverImage tripDB "Trip" Committed
          = Resolved (Some (mkImage "c" "Trip" 23))) as H
    by (vm_compute; reflexivity).
  split; [done|].
  apply (proj2 (proj2 (proj2 (proj2 (cover_derivation tripDB [] "Trip"))) _ H)).
  vm_compute. do 2 (apply elem_of_cons; right). apply elem_of_cons. by left.
Defined.

Lemma galleryImages_Permutation db G :
  galleryImages db G ≡ₚ
  (map_to_list (index_only GalleryImage.galleryId G (images db))).*2.
Proof.
  unfold galleryImages.
  by rewrite js_sort_Permutation, openCursor_only_Permutation.
Qed.

(** C4. In every state reached from the empty database by any history of
    calls, [loadGalleryImages(G)] returns exactly the images stored for G,
    newest timestamp first, and [loadAllGalleries()] returns exactly the
    stored galleries, newest [createdAt] first.  Ties are broken by the
    stored keys alone (ascending image id, descending gallery id), so two
    histories that leave the same records give the same lists. *)
Theorem ordering (history : list op) (G : string) :
  let db := run emptyDB history in
  (∃ imgs,
     loadGalleryImages db G Committed = Resolved imgs ∧
     imgs ≡ₚ (map_to_list
                (index_only GalleryImage.galleryId G (images db))).*2 ∧
     StronglySorted
       (λ a b, GalleryImage.timestamp a >= GalleryImage.timestamp b) imgs ∧
     StronglySorted image_order imgs) ∧
  (∃ gs,
     loadAllGalleries db Committed = Resolved gs ∧
     gs ≡ₚ (map_to_list (galleries db)).*2 ∧
     StronglySorted (λ a b, Gallery.createdAt a >= Gallery.createdAt b) gs ∧
     StronglySorted gallery_order gs) ∧
  (∀ history',
     images (run emptyDB history') = images db →
     galleries (run emptyDB history') = galleries db →
     loadGalleryImages (run emptyDB history') G Committed
       = loadGalleryImages db G Committed ∧
     loadAllGalleries (run emptyDB history') Committed
       = loadAllGalleries db Committed).
Proof.
  intros db.
  assert (keyed_by_id db) as Hk
    by apply keyed_by_id_run, keyed_by_id_empty.
  split; [|split].
  - exists (galleryImages db G).
    split; [done|]. split; [apply galleryImages_Permutation|].
    split; [apply galleryImages_descending | by apply galleryImages_sorted].
  - exists (allGalleries db).
    split; [done|]. split; [apply allGalleries_Permutation|].
    split; [apply allGalleries_descending | by apply allGalleries_sorted].
  - intros history' Hi Hg.
    unfold loadGalleryImages, loadAllGalleries, galleryImages, allGalleries.
    by rewrite Hi, Hg.
Qed.

Lemma ordering_witness :
  let one_by_one :=
    [SaveImage (mkImage "b" "Trip" 7) Committed;
     SaveImage (mkImage "c" "Trip" 9) Committed;
     SaveImage (mkImage "a" "Trip" 7) Committed] in
  let batch :=
    [SaveImages [mkImage "a" "Trip" 7; mkImage "b" "Trip" 7;
                 mkImage "c" "Trip" 9] Committed] in
  loadGalleryImages (run emptyDB one_by_one) "Trip" Committed
    = loadGalleryImages (run emptyDB batch) "Trip" Committed ∧
  loadGalleryImages (run emptyDB batch) "Trip" Committed
    = Resolved [mkImage "c" "Trip" 9; mkImage "a" "Trip" 7;
                mkImage "b" "Trip" 7].
Proof.
  intros one_by_one batch. split.
  - apply (proj2 (proj2 (ordering batch "Trip")) one_by_one);
      vm_compute; reflexivity.
  - vm_compute. reflexivity.
Defined.

(** ** Batch put *)

Lemma lookup_put_all_fresh (imgs : list GalleryImage.t)
    (store : gmap string GalleryImage.t) i :
  i ∉ GalleryImage.id <$> imgs →
  foldl (λ s image, <[GalleryImage.id image := image]> s) store imgs !! i
    = store !! i.
Proof.
  revert store. induction imgs as [|x imgs IH]; intros store Hi; [done|].
  rewrite fmap_cons in Hi. apply not_elem_of_cons in Hi as [Hne Hi].
  simpl. rewrite IH by done. by rewrite lookup_insert_ne.
Qed.

Lemma lookup_put_all_distinct (imgs : list GalleryImage.t)
    (store : gmap string GalleryImage.t) r :
  NoDup (GalleryImage.id <$> imgs) → r ∈ imgs →
  foldl (λ s image, <[GalleryImage.id image := image]> s) store imgs
    !! GalleryImage.id r = Some r.
Proof.
  revert store. induction imgs as [|x imgs IH]; intros store Hnd Hr.
  { by apply elem_of_nil in Hr. }
  rewrite fmap_cons in Hnd. apply NoDup_cons in Hnd as [Hx Hnd].
  apply elem_of_cons in Hr as [->|Hr]; simpl.
  - rewrite lookup_put_all_fresh by done. apply lookup_insert_eq.
  - by apply IH.
Qed.

(** C2, as the code has it.  [saveImages] is one unit of work.  When it
    commits the promise resolves and, for a list of records with pairwise
    distinct ids, a get by id returns each of the K records; when it aborts
    the promise rejects and the database is the one before the call, so no
    record of the batch that was not readable before is readable after. *)
Theorem saveImages_atomic (db : DB) (imgs : list GalleryImage.t) :
  (saveImages db imgs Committed).2 = Resolved tt ∧
  (NoDup (GalleryImage.id <$> imgs) →
   ∀ r, r ∈ imgs → visible (saveImages db imgs Committed).1 r) ∧
  saveImages db imgs Aborted = (db, Rejected) ∧
  (∀ r, r ∈ imgs → ¬ visible db r →
        ¬ visible (saveImages db imgs Aborted).1 r).
Proof.
  split; [done|]. split; [|by split].
  intros Hnd r Hr. unfold visible, store_get. simpl.
  by rewrite lookup_put_all_distinct.
Qed.

Lemma saveImages_atomic_witness :
  visible (saveImages tripDB [mkImage "x" "Trip" 30; mkImage "y" "Trip" 31]
             Committed).1 (mkImage "y" "Trip" 31) ∧
  ¬ visible (saveImages tripDB [mkImage "x" "Trip" 30; mkImage "y" "Trip" 31]
               Aborted).1 (mkImage "x" "Trip" 30).
Proof.
  pose proof (saveImages_atomic tripDB
                [mkImage "x" "Trip" 30; mkImage "y" "Trip" 31])
    as (_ & Hcommit & _ & Habort).
  split.
  - apply Hcommit.
    + vm_compute. repeat constructor; rewrite ?elem_of_cons, ?elem_of_nil;
        intros H; repeat destruct H as [H|H]; done.
    + apply elem_of_cons. right. apply elem_of_cons. by left.
  - apply Habort.
    + apply elem_of_cons. by left.
    + vm_compute. discriminate.
Defined.

(** C2, as stated, fails when two records of the batch share an id: the
    later [put] overwrites the earlier one, which is then not readable. *)
Lemma saveImages_shared_id_overwrites :
  let batch := [mkImage "x" "Trip" 1; mkImage "x" "Trip" 2] in
  (saveImages emptyDB batch Committed).2 = Resolved tt ∧
  ¬ (∀ r, r ∈ batch → visible (saveImages emptyDB batch Committed).1 r).
Proof.
  intros batch. split; [done|]. intros H.
  specialize (H (mkImage "x" "Trip" 1)).
  assert (mkImage "x" "Trip" 1 ∈ batch) as Hin by (apply elem_of_cons; by left).
  apply H in Hin. vm_compute in Hin. discriminate.
Qed.

(** ** Update stamps *)

Lemma updateGallery_stored db gallery now :
  galleries (updateGallery db gallery now Committed).1 !! Gallery.id gallery
    = Some (stamp gallery now).
Proof. simpl. apply lookup_insert_eq. Qed.

Lemma stored_after_monotonic (gid : string) (calls : list update_call) :
  ∀ (db : DB) (gcur : Gallery.t) (t : Z),
    galleries db !! gid = Some gcur →
    Gallery.updatedAt gcur <= t →
    Sorted Z.le (t :: (call_now <$> calls)) →
    Forall (λ c, Gallery.id (call_gallery c) = gid) calls →
    ∃ gs,
      stored_after db gid calls = Some <$> gs ∧
      Sorted Z.le (Gallery.updatedAt <$> (gcur :: gs)) ∧
      Forall (λ g, Gallery.updatedAt gcur <= Gallery.updatedAt g) gs ∧
      (Gallery.createdAt gcur <= Gallery.updatedAt gcur →
       Forall (λ c, Gallery.createdAt (call_gallery c)
                    = Gallery.createdAt gcur) calls →
       Forall (λ g, Gallery.createdAt g <= Gallery.updatedAt g) gs).
Proof.
  induction calls as [|[[g now] o] calls IH]; intros db gcur t Hcur Ht Hclock Hid.
  { exists []. split; [done|]. split; [repeat constructor|].
    split; [constructor | intros; constructor]. }
  rewrite fmap_cons in Hclock. apply Sorted_inv in Hclock as [Hclock Hhd].
  apply HdRel_inv in Hhd. unfold call_now in Hhd. simpl in Hhd.
  apply Forall_cons in Hid as [Hg Hid]. unfold call_gallery in Hg. simpl in Hg.
  destruct o.
  - (* the call commits: the stamped record replaces the stored one *)
    assert (galleries (updateGallery db g now Committed).1 !! gid
            = Some (stamp g now)) as Hnew
      by (rewrite <- Hg; apply updateGallery_stored).
    destruct (IH _ (stamp g now) now Hnew ltac:(simpl; lia) Hclock Hid)
      as (gs & Hgs & Hsorted & Hge & Hinv).
    exists (stamp g now :: gs). split; [|split; [|split]].
    + cbn [stored_after]. by rewrite Hgs, Hnew.
    + rewrite fmap_cons. constructor; [exact Hsorted|].
      constructor. simpl. lia.
    + constructor; [simpl; lia|].
      eapply Forall_impl; [exact Hge|]. simpl. intros; lia.
    + intros Hc0 Hkeep. apply Forall_cons in Hkeep as [Hk Hkeep].
      unfold call_gallery in Hk. simpl in Hk.
      constructor; [simpl; lia|]. apply Hinv; [simpl; lia|].
      eapply Forall_impl; [exact Hkeep|]. simpl. intros; congruence.
  - (* the call aborts: the stored record stays *)
    destruct (IH db gcur now Hcur ltac:(lia) Hclock Hid)
      as (gs & Hgs & Hsorted & Hge & Hinv).
    exists (gcur :: gs). split; [|split; [|split]].
    + cbn [stored_after]. simpl. by rewrite Hgs, Hcur.
    + rewrite fmap_cons. constructor; [exact Hsorted|]. by constructor.
    + by constructor.
    + intros Hc0 Hkeep. apply Forall_cons in Hkeep as [_ Hkeep].
      constructor; [done|]. by apply Hinv.
Qed.

(** C6, as the code has it.  A committed [updateGallery] stores the caller's
    record with [updatedAt] replaced by the clock reading.  For a gallery
    made by [createGallery] and any sequence of [updateGallery] calls on its
    id, with clock readings that never go back, the stored [updatedAt]
    after each call is at least the one before it and at least the
    [createdAt] that [createGallery] assigned; and when every call passes
    that [createdAt] on unchanged, every stored record has
    [updatedAt >= createdAt]. *)
Theorem updateGallery_stamps_monotonic (db : DB) (rnd : N) (now1 now2 : Z)
    (name : string) (description : option string)
    (calls : list update_call) (db0 : DB) (g0 : Gallery.t) :
  createGallery db rnd now1 now2 name description Committed
    = (db0, Resolved g0) →
  Sorted Z.le (now1 :: now2 :: (call_now <$> calls)) →
  Forall (λ c, Gallery.id (call_gallery c) = Gallery.id g0) calls →
  (∀ d gallery now,
     galleries (updateGallery d gallery now Committed).1 !! Gallery.id gallery
       = Some (stamp gallery now) ∧
     Gallery.updatedAt (stamp gallery now) = now) ∧
  ∃ gs,
    stored_after db0 (Gallery.id g0) calls = Some <$> gs ∧
    Sorted Z.le (Gallery.updatedAt <$> (g0 :: gs)) ∧
    Forall (λ g, Gallery.createdAt g0 <= Gallery.updatedAt g) (g0 :: gs) ∧
    (Forall (λ c, Gallery.createdAt (call_gallery c) = Gallery.createdAt g0)
            calls →
     Forall (λ g, Gallery.createdAt g <= Gallery.updatedAt g) (g0 :: gs)).
Proof.
  intros Hcreate Hclock Hid.
  split; [intros; split; [apply updateGallery_stored | done]|].
  assert (galleries db0 !! Gallery.id g0 = Some g0) as Hstored
    by (injection Hcreate as <- <-; apply lookup_insert_eq).
  assert (Gallery.createdAt g0 = now1 ∧ Gallery.updatedAt g0 = now2)
    as [Hc Hu] by (injection Hcreate as _ <-; done).
  apply Sorted_inv in Hclock as [Hclock Hhd]. apply HdRel_inv in Hhd.
  destruct (stored_after_monotonic (Gallery.id g0) calls db0 g0 now2
              Hstored ltac:(lia) Hclock Hid)
    as (gs & Hgs & Hsorted & Hge & Hinv).
  exists gs. split; [done|]. split; [done|]. split.
  - constructor; [lia|].
    eapply Forall_impl; [exact Hge|]. simpl. intros; lia.
  - intros Hkeep. constructor; [lia|]. apply Hinv; [lia|done].
Qed.

Lemma updateGallery_stamps_monotonic_witness :
  let created := createGallery emptyDB 1234567890123456 100 100 "Trip" None
                   Committed in
  let g0 := {| Gallery.id := "4xmvue8bu"; Gallery.name := "Trip";
               Gallery.description := None; Gallery.coverImageId := None;
               Gallery.createdAt := 100; Gallery.updatedAt := 100 |} in
  let renamed := {| Gallery.id := "4xmvue8bu"; Gallery.name := "Trip 2";
                    Gallery.description := None; Gallery.coverImageId := None;
                    Gallery.createdAt := 100; Gallery.updatedAt := 0 |} in
  ∃ gs,
    stored_after created.1 "4xmvue8bu"
      [(renamed, 150, Committed); (renamed, 160, Aborted);
       (renamed, 170, Committed)] = Some <$> gs ∧
    Sorted Z.le (Gallery.updatedAt <$> (g0 :: gs)) ∧
    Forall (λ g, Gallery.createdAt g <= Gallery.updatedAt g) (g0 :: gs).
Proof.
  intros created g0 renamed.
  destruct (updateGallery_stamps_monotonic emptyDB 1234567890123456 100 100
              "Trip" None
              [(renamed, 150, Committed); (renamed, 160, Aborted);
               (renamed, 170, Committed)] created.1 g0) as [_ (gs & H1 & H2 & H3 & H4)].
  - vm_compute. reflexivity.
  - vm_compute. repeat constructor; discriminate.
  - repeat constructor.
  - exists gs. split; [exact H1|]. split; [exact H2|].
    apply H4. repeat constructor.
Defined.

(** C6, as stated, fails: [createdAt] is the caller's on every update, so a
    call on the same gallery that passes a later [createdAt] leaves a stored
    record whose [updatedAt] is before its [createdAt], with a clock that
    never goes back. *)
Lemma updateGallery_keeps_caller_createdAt :
  let created := createGallery emptyDB 1234567890123456 100 100 "Trip" None
                   Committed in
  let passed := {| Gallery.id := "4xmvue8bu"; Gallery.name := "Trip";
                   Gallery.description := None; Gallery.coverImageId := None;
                   Gallery.createdAt := 200; Gallery.updatedAt := 100 |} in
  (∃ g0, created.2 = Resolved g0 ∧ Gallery.id g0 = Gallery.id passed) ∧
  Sorted Z.le [100; 100; 150] ∧
  ∃ g, stored_after created.1 "4xmvue8bu" [(passed, 150, Committed)]
         = [Some g] ∧
       Gallery.updatedAt g < Gallery.createdAt g.
Proof.
  intros created passed. split; [|split].
  - eexists. split; [reflexivity|]. vm_compute. reflexivity.
  - repeat constructor; discriminate.
  - exists (stamp passed 150). split; [|simpl; lia].
    vm_compute. reflexivity.
Qed.

(** ** Identifiers *)

Lemma substring_length_le (n m : nat) (s : string) :
  (String.length (String.substring n m s) ≤ m)%nat.
Proof.
  revert n m. induction s as [|c s IH]; intros [|n] [|m]; simpl; try lia.
  - specialize (IH 0%nat m). lia.
  - apply (IH n 0%nat).
  - apply (IH n (S m)).
Qed.

(** The token never has more than nine characters. *)
Lemma generateId_length (m : N) : (String.length (generateId m) ≤ 9)%nat.
Proof. apply substring_length_le. Qed.

(** The token is a function of the random number alone: the store is not
    consulted, neither for the token nor for a clash with a stored key. *)
Lemma createGallery_id_independent (db1 db2 : DB) rnd now1 now2 name description :
  (createGallery db1 rnd now1 now2 name description Committed).2
  = (createGallery db2 rnd now1 now2 name description Committed).2.
Proof. reflexivity. Qed.

(** C7. The identifier of a created gallery can have fewer than nine
    characters: when [Math.random()] returns 0.5, whose radix-36 form is
    "0.i", the gallery gets the one-character id "i"; when it returns 0,
    whose radix-36 form is "0", the gallery gets the empty id. *)
Theorem createGallery_short_id (db : DB) (now1 now2 : Z) (name : string)
    (description : option string) :
  (∃ g, createGallery db (2 ^ 52) now1 now2 name description Committed
          = ({| galleries := <["i"%string := g]> (galleries db);
                images := images db |}, Resolved g) ∧
        Gallery.id g = "i"%string ∧
        (String.length (Gallery.id g) < 9)%nat) ∧
  (∃ g, createGallery db 0 now1 now2 name description Committed
          = ({| galleries := <[""%string := g]> (galleries db);
                images := images db |}, Resolved g) ∧
        Gallery.id g = ""%string).
Proof.
  split; eexists; (split; [reflexivity|]); [split; [reflexivity|]|reflexivity].
  vm_compute. lia.
Qed.







(** * Further properties of the service *)

(** ** Single put and delete *)

Lemma DB_eq (db1 db2 : DB) :
  galleries db1 = galleries db2 → images db1 = images db2 → db1 = db2.
Proof. destruct db1, db2; simpl; congruence. Qed.

(** X1. After a committed [saveImage(r)] a get by [r.id] returns [r] and
    [loadGalleryImages(r.galleryId)] lists [r], whether or not a gallery
    with that id is stored; every other image key and the galleries store
    are unchanged.  An aborted call changes nothing. *)
Theorem saveImage_roundtrip (db : DB) (r : GalleryImage.t) :
  (saveImage db r Committed).2 = Resolved tt ∧
  store_get (images (saveImage db r Committed).1) (GalleryImage.id r)
    = idb_value r ∧
  r ∈ galleryImages (saveImage db r Committed).1 (GalleryImage.galleryId r) ∧
  (∀ i, i ≠ GalleryImage.id r →
        images (saveImage db r Committed).1 !! i = images db !! i) ∧
  galleries (saveImage db r Committed).1 = galleries db ∧
  saveImage db r Aborted = (db, Rejected).
Proof.
  split; [done|]. split.
  { unfold store_get. simpl. by rewrite lookup_insert_eq. }
  split.
  { apply elem_of_galleryImages. exists (GalleryImage.id r).
    split; [|done]. simpl. apply lookup_insert_eq. }
  split; [|done].
  intros i Hi. simpl. by rewrite lookup_insert_ne.
Qed.

Lemma saveImage_roundtrip_witness :
  images (saveImage tripDB (mkImage "n" "Nowhere" 5) Committed).1 !! "a"
    = images tripDB !! "a".
Proof.
  apply (proj1 (proj2 (proj2 (proj2
           (saveImage_roundtrip tripDB (mkImage "n" "Nowhere" 5)))))).
  discriminate.
Defined.

(** X2. A committed [deleteImage(id)] resolves and leaves no record under
    [id]; when no record was stored under [id] the database is unchanged;
    every other image key and the galleries store are unchanged. *)
Theorem deleteImage_spec (db : DB) (imageId : string) :
  (deleteImage db imageId Committed).2 = Resolved tt ∧
  store_get (images (deleteImage db imageId Committed).1) imageId
    = idb_undefined ∧
  (images db !! imageId = None → (deleteImage db imageId Committed).1 = db) ∧
  (∀ i, i ≠ imageId →
        images (deleteImage db imageId Committed).1 !! i = images db !! i) ∧
  galleries (deleteImage db imageId Committed).1 = galleries db.
Proof.
  split; [done|]. split.
  { unfold store_get. simpl. by rewrite lookup_delete_eq. }
  split.
  { intros H. apply DB_eq; [done|]. simpl. by apply delete_id. }
  split; [|done].
  intros i Hi. simpl. by rewrite lookup_delete_ne.
Qed.

Lemma deleteImage_spec_witness :
  (deleteImage tripDB "zz" Committed).1 = tripDB ∧
  images (deleteImage tripDB "a" Committed).1 !! "b" = images tripDB !! "b".
Proof.
  split.
  - apply (proj1 (proj2 (proj2 (deleteImage_spec tripDB "zz")))).
    vm_compute. reflexivity.
  - apply (proj1 (proj2 (proj2 (proj2 (deleteImage_spec tripDB "a"))))).
    discriminate.
Defined.

(** X3. Saving an image under an id that is not stored and then deleting
    that id gives back the database from before the two calls. *)
Theorem saveImage_deleteImage_undo (db : DB) (r : GalleryImage.t) :
  images db !! GalleryImage.id r = None →
  (deleteImage (saveImage db r Committed).1 (GalleryImage.id r) Committed).1
    = db.
Proof.
  intros H. apply DB_eq; [done|]. simpl. by apply delete_insert_id.
Qed.

Lemma saveImage_deleteImage_undo_witness :
  (deleteImage (saveImage tripDB (mkImage "n" "Trip" 5) Committed).1 "n"
     Committed).1 = tripDB.
Proof.
  apply (saveImage_deleteImage_undo tripDB (mkImage "n" "Trip" 5)).
  vm_compute. reflexivity.
Defined.

(** ** Batches *)

(** X4. A committed batch of [l1 ++ l2] leaves the database that committed
    batches of [l1] and then of [l2] leave; a batch of one record is
    [saveImage] of that record; a committed empty batch changes nothing. *)
Theorem saveImages_compose (db : DB) (l1 l2 : list GalleryImage.t)
    (r : GalleryImage.t) :
  (saveImages db (l1 ++ l2) Committed).1
    = (saveImages (saveImages db l1 Committed).1 l2 Committed).1 ∧
  saveImages db [r] Committed = saveImage db r Committed ∧
  saveImages db [] Committed = (db, Resolved tt).
Proof.
  split; [|split]; [|done|].
  - simpl. by rewrite foldl_app.
  - simpl. f_equal. by apply DB_eq.
Qed.

Lemma lookup_put_all_last (imgs : list GalleryImage.t)
    (store : gmap string GalleryImage.t) i :
  foldl (λ s image, <[GalleryImage.id image := image]> s) store imgs !! i
  = match last (filter (λ r, GalleryImage.id r = i) imgs) with
    | Some r => Some r
    | None => store !! i
    end.
Proof.
  induction imgs as [|x imgs IH] using rev_ind; [done|].
  rewrite foldl_snoc, filter_app, filter_cons, filter_nil.
  destruct (decide (GalleryImage.id x = i)) as [<-|Hne].
  - by rewrite last_snoc, lookup_insert_eq.
  - by rewrite app_nil_r, lookup_insert_ne.
Qed.

(** X5. After a committed batch, the record stored under an id is the last
    record of the batch with that id; an id that no record of the batch has
    keeps what was stored under it. *)
Theorem saveImages_last_wins (db : DB) (imgs : list GalleryImage.t)
    (i : string) :
  images (saveImages db imgs Committed).1 !! i
  = match last (filter (λ r, GalleryImage.id r = i) imgs) with
    | Some r => Some r
    | None => images db !! i
    end.
Proof. simpl. apply lookup_put_all_last. Qed.

(** ** Counts *)

Lemma index_count_insert (G : string) (store : gmap string GalleryImage.t)
    (r : GalleryImage.t) :
  (index_count GalleryImage.galleryId G (<[GalleryImage.id r := r]> store)
   + owned_by G (store !! GalleryImage.id r)
   = index_count GalleryImage.galleryId G store + owned_by G (Some r))%nat.
Proof.
  unfold index_count, index_only, owned_by.
  rewrite map_filter_insert. cbn [snd].
  destruct (store !! GalleryImage.id r) as [old|] eqn:Hold.
  - destruct (decide (GalleryImage.galleryId old = G)) as [Ho|Ho].
    + assert (filter (λ kv, GalleryImage.galleryId kv.2 = G) store
                !! GalleryImage.id r = Some old) as Hf
        by (by apply map_lookup_filter_Some).
      destruct (decide (GalleryImage.galleryId r = G)).
      * rewrite map_size_insert, Hf. simpl. lia.
      * rewrite map_filter_delete, map_size_delete, Hf.
        pose proof (map_size_ne_0_lookup_2 _ _ (mk_is_Some _ _ Hf)).
        simpl. lia.
    + assert (filter (λ kv, GalleryImage.galleryId kv.2 = G) store
                !! GalleryImage.id r = None) as Hf.
      { apply map_lookup_filter_None. right. intros x Hx. simpl. congruence. }
      destruct (decide (GalleryImage.galleryId r = G)).
      * rewrite map_size_insert, Hf. lia.
      * rewrite map_filter_delete, map_size_delete, Hf. simpl. lia.
  - assert (filter (λ kv, GalleryImage.galleryId kv.2 = G) store
              !! GalleryImage.id r = None) as Hf.
    { apply map_lookup_filter_None. by left. }
    destruct (decide (GalleryImage.galleryId r = G)).
    + rewrite map_size_insert, Hf. lia.
    + rewrite map_filter_delete, map_size_delete, Hf. simpl. lia.
Qed.

Lemma index_count_delete (G : string) (store : gmap string GalleryImage.t)
    (i : string) :
  (index_count GalleryImage.galleryId G (delete i store)
   + owned_by G (store !! i)
   = index_count GalleryImage.galleryId G store)%nat.
Proof.
  unfold index_count, index_only, owned_by.
  rewrite map_filter_delete, map_size_delete.
  destruct (store !! i) as [old|] eqn:Hold.
  - destruct (decide (GalleryImage.galleryId old = G)) as [Ho|Ho].
    + assert (filter (λ kv, GalleryImage.galleryId kv.2 = G) store !! i
              = Some old) as Hf by (by apply map_lookup_filter_Some).
      rewrite Hf.
      pose proof (map_size_ne_0_lookup_2 _ _ (mk_is_Some _ _ Hf)).
      simpl. lia.
    + assert (filter (λ kv, GalleryImage.galleryId kv.2 = G) store !! i
              = None) as Hf.
      { apply map_lookup_filter_None. right. intros x Hx. simpl. congruence. }
      rewrite Hf. simpl. lia.
  - assert (filter (λ kv, GalleryImage.galleryId kv.2 = G) store !! i
            = None) as Hf by (apply map_lookup_filter_None; by left).
    rewrite Hf. simpl. lia.
Qed.

(** X6. A committed [saveImage(r)] changes [getGalleryImageCount(G)] by the
    record it adds to G minus the record it replaces in G: the count after,
    plus one if the record formerly stored under [r.id] was in G, is the
    count before, plus one if [r] is in G. *)
Theorem saveImage_count (db : DB) (r : GalleryImage.t) (G : string) :
  ∃ before after,
    getGalleryImageCount db G Committed = Resolved before ∧
    getGalleryImageCount (saveImage db r Committed).1 G Committed
      = Resolved after ∧
    (after + owned_by G (images db !! GalleryImage.id r)
     = before + owned_by G (Some r))%nat.
Proof.
  eexists _, _. split; [reflexivity|]. split; [reflexivity|].
  simpl. apply index_count_insert.
Qed.

(** X7. A committed [deleteImage(id)] lowers [getGalleryImageCount(G)] by
    one when the record stored under [id] was in G and leaves it as it is
    otherwise (also when nothing was stored under [id]). *)
Theorem deleteImage_count (db : DB) (imageId : string) (G : string) :
  ∃ before after,
    getGalleryImageCount db G Committed = Resolved before ∧
    getGalleryImageCount (deleteImage db imageId Committed).1 G Committed
      = Resolved after ∧
    (after + owned_by G (images db !! imageId) = before)%nat.
Proof.
  eexists _, _. split; [reflexivity|]. split; [reflexivity|].
  simpl. apply index_count_delete.
Qed.

(** ** Cascading delete and the other galleries *)

Lemma deleteGallery_index_other db G G' :
  G' ≠ G →
  index_only GalleryImage.galleryId G'
    (images (deleteGallery db G Committed).1)
  = index_only GalleryImage.galleryId G' (images db).
Proof.
  intros Hne. apply map_eq. intros i. apply option_eq. intros r.
  rewrite !index_only_lookup, deleteGallery_images_lookup.
  destruct (images db !! i) as [r'|]; [|reflexivity].
  destruct (decide (GalleryImage.galleryId r' = G)) as [Hg|Hg]; [|reflexivity].
  split; [by intros [? _]|]. intros [[= ->] Hr]. congruence.
Qed.

(** X8. After a committed [deleteGallery(G)] the count of G is 0, and for
    every other gallery id both [loadGalleryImages] and
    [getGalleryImageCount] return what they returned before. *)
Theorem deleteGallery_counts (db : DB) (G G' : string) :
  getGalleryImageCount (deleteGallery db G Committed).1 G Committed
    = Resolved 0%nat ∧
  (G' ≠ G →
   loadGalleryImages (deleteGallery db G Committed).1 G' Committed
     = loadGalleryImages db G' Committed ∧
   getGalleryImageCount (deleteGallery db G Committed).1 G' Committed
     = getGalleryImageCount db G' Committed).
Proof.
  split.
  - unfold getGalleryImageCount. f_equal.
    rewrite <- galleryImages_length, galleryImages_nil; [done|].
    intros i r. rewrite deleteGallery_images_lookup.
    destruct (images db !! i) as [r'|]; [|done].
    destruct (decide _); [done|]. by intros [= <-].
  - intros Hne.
    unfold loadGalleryImages, getGalleryImageCount, galleryImages,
      openCursor_only, index_count.
    by rewrite deleteGallery_index_other.
Qed.

Lemma deleteGallery_counts_witness :
  loadGalleryImages (deleteGallery tripDB "Trip" Committed).1 "Home" Committed
    = loadGalleryImages tripDB "Home" Committed.
Proof.
  apply (proj2 (deleteGallery_counts tripDB "Trip" "Home")). discriminate.
Defined.

(** X9. [deleteGallery] is idempotent: a second committed delete of the
    same id leaves the database the first one left. *)
Theorem deleteGallery_idempotent (db : DB) (G : string) :
  (deleteGallery (deleteGallery db G Committed).1 G Committed).1
    = (deleteGallery db G Committed).1.
Proof.
  apply DB_eq.
  - simpl. apply delete_delete_eq.
  - apply map_eq. intros i. rewrite !deleteGallery_images_lookup.
    destruct (images db !! i) as [r|]; [|done].
    destruct (decide (GalleryImage.galleryId r = G)) as [|Hne]; [done|].
    by rewrite decide_False.
Qed.

(** X10. For every gallery id, [getGalleryImageCount] is 0 exactly when
    [getGalleryCoverImage] is [null]. *)
Theorem count_zero_iff_no_cover (db : DB) (G : string) :
  getGalleryImageCount db G Committed = Resolved 0%nat ↔
  getGalleryCoverImage db G Committed = Resolved None.
Proof.
  unfold getGalleryImageCount, getGalleryCoverImage, loadGalleryImages.
  rewrite <- galleryImages_length.
  destruct (galleryImages db G) as [|x l]; simpl; split; intros H;
    try done; discriminate.
Qed.

(** ** Sorted lists are determined by their elements *)

Lemma StronglySorted_irrefl_NoDup {A} (R : relation A) (l : list A) :
  (∀ x, ¬ R x x) → StronglySorted R l → NoDup l.
Proof.
  intros Hirr. induction 1 as [|x l Hl IH Hx]; constructor; [|done].
  intros Hin. apply (Hirr x). by apply (proj1 (Forall_forall _ _) Hx).
Qed.

Lemma StronglySorted_filter {A} (R : relation A) (P : A → Prop)
    `{∀ x, Decision (P x)} (l : list A) :
  StronglySorted R l → StronglySorted R (filter P l).
Proof.
  induction 1 as [|x l Hl IH Hx]; [constructor|].
  rewrite filter_cons. destruct (decide (P x)); [|done].
  constructor; [done|].
  apply Forall_forall. intros y [_ Hy]%list_elem_of_filter.
  by apply (proj1 (Forall_forall _ _) Hx).
Qed.

Lemma StronglySorted_weaken_elem {A} (R1 R2 : relation A) (l : list A) :
  (∀ a b, a ∈ l → b ∈ l → R1 a b → R2 a b) →
  StronglySorted R1 l → StronglySorted R2 l.
Proof.
  intros HR Hs. induction Hs as [|x l Hl IH Hx]; constructor.
  - apply IH. intros a b Ha Hb. apply HR; by apply list_elem_of_further.
  - apply Forall_forall. intros y Hy.
    apply HR; [by left | by apply list_elem_of_further |].
    by apply (proj1 (Forall_forall _ _) Hx).
Qed.

Lemma StronglySorted_fmap_elem {A B} (f : A → B) (R1 : relation A)
    (R2 : relation B) (l : list A) :
  (∀ a b, a ∈ l → b ∈ l → R1 a b → R2 (f a) (f b)) →
  StronglySorted R1 l → StronglySorted R2 (f <$> l).
Proof.
  intros HR Hs. induction Hs as [|x l Hl IH Hx]; csimpl; constructor.
  - apply IH. intros a b Ha Hb. apply HR; by apply list_elem_of_further.
  - apply Forall_fmap, Forall_forall. intros y Hy. simpl.
    apply HR; [by left | by apply list_elem_of_further |].
    by apply (proj1 (Forall_forall _ _) Hx).
Qed.

Lemma newest_first_asym {A} (f : A → Z) (tie : relation A) a b :
  (tie a b → tie b a → False) →
  newest_first f tie a b → newest_first f tie b a → False.
Proof. intros Ht [H1|[H1 T1]] [H2|[H2 T2]]; try lia. by apply Ht. Qed.

Lemma key_lt_asym a b : key_lt a b → key_lt b a → False.
Proof. intros H1 H2. apply (key_lt_irrefl a). by eapply key_lt_trans. Qed.

Lemma image_order_asym a b : image_order a b → image_order b a → False.
Proof. apply newest_first_asym, key_lt_asym. Qed.

Lemma gallery_order_asym a b : gallery_order a b → gallery_order b a → False.
Proof. apply newest_first_asym. intros H1 H2. by eapply key_lt_asym. Qed.

Lemma sorted_unique {A} (R : relation A) (l1 l2 : list A) :
  (∀ a b, R a b → R b a → False) →
  StronglySorted R l1 → StronglySorted R l2 →
  (∀ x, x ∈ l1 ↔ x ∈ l2) → l1 = l2.
Proof.
  intros Hasym H1 H2 Hel.
  apply (StronglySorted_unique_strong R); [|done..|].
  - intros x y _ _ Hxy Hyx. destruct (Hasym x y Hxy Hyx).
  - apply NoDup_Permutation; [| |done];
      eapply StronglySorted_irrefl_NoDup; try eassumption;
      intros x Hx; apply (Hasym x x Hx Hx).
Qed.

(** A sorted list with the images of G is the list the query returns. *)
Lemma galleryImages_unique db G (l : list GalleryImage.t) :
  keyed_by_id db →
  StronglySorted image_order l →
  (∀ x, x ∈ l ↔ ∃ i, images db !! i = Some x ∧ GalleryImage.galleryId x = G) →
  l = galleryImages db G.
Proof.
  intros Hk Hs Hel. apply (sorted_unique image_order).
  - apply image_order_asym.
  - done.
  - by apply galleryImages_sorted.
  - intros x. by rewrite Hel, elem_of_galleryImages.
Qed.

Lemma elem_of_allGalleries db g :
  g ∈ allGalleries db ↔ ∃ i, galleries db !! i = Some g.
Proof.
  rewrite allGalleries_Permutation, list_elem_of_fmap. split.
  - intros [[i g'] [-> H]]. exists i. by apply elem_of_map_to_list in H.
  - intros [i H]. exists (i, g). split; [done|]. by apply elem_of_map_to_list.
Qed.

Lemma allGalleries_unique db (l : list Gallery.t) :
  keyed_by_id db →
  StronglySorted gallery_order l →
  (∀ g, g ∈ l ↔ ∃ i, galleries db !! i = Some g) →
  l = allGalleries db.
Proof.
  intros Hk Hs Hel. apply (sorted_unique gallery_order).
  - apply gallery_order_asym.
  - done.
  - by apply allGalleries_sorted.
  - intros x. by rewrite Hel, elem_of_allGalleries.
Qed.

(** ** The deprecated all-images query *)

Lemma allImages_sorted db :
  keyed_by_id db →
  StronglySorted all_images_order
    (snd <$> openCursor_prev GalleryImage.timestamp (images db)).
Proof.
  intros [_ Hi]. unfold all_images_order.
  eapply (StronglySorted_values (flip (index_le GalleryImage.timestamp)) _
            (λ kv, GalleryImage.id kv.2 = kv.1)).
  - intros x y Hx Hy Hne [Hlt|[Heq Hle]]; [by left|right].
    split; [done|]. rewrite Hx, Hy. apply key_le_ne_lt; [done|congruence].
  - apply Forall_forall. intros [i g] H.
    rewrite openCursor_prev_Permutation in H.
    apply elem_of_map_to_list in H. by apply Hi.
  - rewrite openCursor_prev_Permutation. apply NoDup_fst_map_to_list.
  - apply openCursor_prev_sorted.
Qed.

(** X11. In every state reached from the empty database, [loadAllImages()]
    returns every stored image exactly once, newest timestamp first, with
    equal timestamps in descending order of id. *)
Theorem loadAllImages_sorted (history : list op) :
  ∃ imgs,
    loadAllImages (run emptyDB history) Committed = Resolved imgs ∧
    imgs ≡ₚ (map_to_list (images (run emptyDB history))).*2 ∧
    StronglySorted
      (λ a b, GalleryImage.timestamp a >= GalleryImage.timestamp b) imgs ∧
    StronglySorted all_images_order imgs.
Proof.
  eexists. split; [reflexivity|]. split; [|split].
  - by rewrite openCursor_prev_Permutation.
  - eapply StronglySorted_fmap; [|apply openCursor_prev_sorted].
    intros x y [H|[H _]]; simpl; lia.
  - apply allImages_sorted, keyed_by_id_run, keyed_by_id_empty.
Qed.

Lemma NoDup_fmap_eq {A B} (f : A → B) (l : list A) a b :
  NoDup (f <$> l) → a ∈ l → b ∈ l → f a = f b → a = b.
Proof.
  induction l as [|x l IH]; intros Hnd Ha Hb Hf.
  { by apply elem_of_nil in Ha. }
  rewrite fmap_cons in Hnd. apply NoDup_cons in Hnd as [Hx Hnd].
  apply elem_of_cons in Ha as [->|Ha], Hb as [->|Hb]; try done.
  - destruct Hx. rewrite Hf. by apply list_elem_of_fmap_2.
  - destruct Hx. rewrite <- Hf. by apply list_elem_of_fmap_2.
  - by apply IH.
Qed.

(** X12. In every state reached from the empty database, when the images
    of a gallery have pairwise distinct timestamps, keeping the images of
    that gallery from the result of [loadAllImages()] gives the list
    [loadGalleryImages] returns, in the same order. *)
Theorem loadAllImages_agrees (history : list op) (G : string) :
  NoDup (GalleryImage.timestamp <$> galleryImages (run emptyDB history) G) →
  ∃ imgs,
    loadAllImages (run emptyDB history) Committed = Resolved imgs ∧
    Resolved (filter (λ r, GalleryImage.galleryId r = G) imgs)
      = loadGalleryImages (run emptyDB history) G Committed.
Proof.
  intros Hnd. set (db := run emptyDB history) in *.
  assert (keyed_by_id db) as Hk by apply keyed_by_id_run, keyed_by_id_empty.
  eexists. split; [reflexivity|]. unfold loadGalleryImages. f_equal.
  set (all := snd <$> openCursor_prev GalleryImage.timestamp (images db)).
  assert (∀ x, x ∈ filter (λ r, GalleryImage.galleryId r = G) all ↔
               x ∈ galleryImages db G) as Hel.
  { intros x. rewrite list_elem_of_filter, elem_of_galleryImages.
    unfold all. rewrite openCursor_prev_Permutation, list_elem_of_fmap.
    split.
    - intros [Hg [[i r] [-> H]]]. exists i.
      by apply elem_of_map_to_list in H.
    - intros [i [H Hg]]. split; [done|]. exists (i, x).
      split; [done|]. by apply elem_of_map_to_list. }
  apply galleryImages_unique; [done| |].
  - eapply StronglySorted_weaken_elem;
      [|apply StronglySorted_filter, allImages_sorted, Hk].
    intros a b Ha%Hel Hb%Hel [Hlt|[Heq Htie]]; [by left|].
    assert (a = b) as -> by (by eapply NoDup_fmap_eq).
    by apply key_lt_irrefl in Htie.
  - intros x. by rewrite Hel, elem_of_galleryImages.
Qed.

Lemma loadAllImages_agrees_witness :
  ∃ imgs,
    loadAllImages tripDB Committed = Resolved imgs ∧
    Resolved (filter (λ r, GalleryImage.galleryId r = "Trip"%string) imgs)
      = loadGalleryImages tripDB "Trip" Committed.
Proof.
  apply (loadAllImages_agrees
           [UpdateGallery (tripGallery "Trip") 10 Committed;
            UpdateGallery (tripGallery "Home") 11 Committed;
            SaveImages [mkImage "a" "Trip" 21; mkImage "b" "Trip" 22;
                        mkImage "c" "Trip" 23] Committed;
            SaveImage (mkImage "h" "Home" 24) Committed] "Trip").
  vm_compute. repeat constructor; rewrite ?elem_of_cons, ?elem_of_nil;
    intros H; repeat destruct H as [H|H]; done.
Defined.

(** ** Galleries: create and update *)

(** X13. A committed [createGallery] resolves with a gallery whose id is
    the generated token, whose name and description are the arguments,
    whose two stamps are the two clock readings and which has no cover
    reference; [loadGallery] of that id then returns it, replacing whatever
    gallery was stored under that id; the images store and every other
    gallery key are unchanged. *)
Theorem createGallery_roundtrip (db : DB) (rnd : N) (now1 now2 : Z)
    (name : string) (description : option string) :
  ∃ db' g,
    createGallery db rnd now1 now2 name description Committed
      = (db', Resolved g) ∧
    g = {| Gallery.id := generateId rnd; Gallery.name := name;
           Gallery.description := description;
           Gallery.coverImageId := None;
           Gallery.createdAt := now1; Gallery.updatedAt := now2 |} ∧
    loadGallery db' (Gallery.id g) Committed = Resolved (Some g) ∧
    images db' = images db ∧
    (∀ i, i ≠ Gallery.id g → galleries db' !! i = galleries db !! i).
Proof.
  eexists _, _. split; [reflexivity|]. split; [reflexivity|]. split; [|split].
  - unfold loadGallery, store_get. simpl. by rewrite lookup_insert_eq.
  - done.
  - intros i Hi. simpl in *. by rewrite lookup_insert_ne.
Qed.

(** X14. A committed [updateGallery(g)] stores the stamped record under
    [g.id] whether or not a gallery was stored there before, so
    [loadGallery(g.id)] returns it; the images store and every other
    gallery key are unchanged.  An aborted call changes nothing. *)
Theorem updateGallery_upsert (db : DB) (g : Gallery.t) (now : Z) :
  loadGallery (updateGallery db g now Committed).1 (Gallery.id g) Committed
    = Resolved (Some (stamp g now)) ∧
  images (updateGallery db g now Committed).1 = images db ∧
  (∀ i, i ≠ Gallery.id g →
        galleries (updateGallery db g now Committed).1 !! i
          = galleries db !! i) ∧
  updateGallery db g now Aborted = (db, Rejected).
Proof.
  split; [|split; [done|split; [|done]]].
  - unfold loadGallery, store_get. simpl. by rewrite lookup_insert_eq.
  - intros i Hi. simpl. by rewrite lookup_insert_ne.
Qed.

Lemma updateGallery_upsert_witness :
  galleries (updateGallery emptyDB (tripGallery "Trip") 5 Committed).1
    !! "Home" = None.
Proof.
  rewrite (proj1 (proj2 (proj2
             (updateGallery_upsert emptyDB (tripGallery "Trip") 5))) "Home").
  - reflexivity.
  - discriminate.
Defined.

(** ** The cover after an upload *)

(** X15. When [r] is newer than every image [loadGalleryImages] lists for
    its gallery, a committed [saveImage(r)] makes [r] the cover of that
    gallery. *)
Theorem saveImage_newest_is_cover (db : DB) (r : GalleryImage.t) :
  Forall (λ x, GalleryImage.timestamp x < GalleryImage.timestamp r)
         (galleryImages db (GalleryImage.galleryId r)) →
  getGalleryCoverImage (saveImage db r Committed).1
    (GalleryImage.galleryId r) Committed = Resolved (Some r).
Proof.
  intros Hnew.
  set (db' := (saveImage db r Committed).1).
  set (G := GalleryImage.galleryId r) in *.
  assert (r ∈ galleryImages db' G) as Hr.
  { apply elem_of_galleryImages. exists (GalleryImage.id r).
    split; [|done]. simpl. apply lookup_insert_eq. }
  pose proof (galleryImages_descending db' G) as Hs.
  unfold getGalleryCoverImage, loadGalleryImages.
  destruct (galleryImages db' G) as [|c l] eqn:Hl.
  { by apply elem_of_nil in Hr. }
  simpl. do 2 f_equal.
  assert (c ∈ galleryImages db' G) as Hc by (rewrite Hl; by left).
  apply elem_of_galleryImages in Hc as [j [Hj Hg]]. simpl in Hj.
  apply lookup_insert_Some in Hj as [[_ Hj]|[Hne Hj]]; [done|].
  assert (c ∈ galleryImages db G) as Hold
    by (apply elem_of_galleryImages; eauto).
  pose proof (proj1 (Forall_forall _ _) Hnew c Hold) as Hlt.
  apply elem_of_cons in Hr as [->|Hr]; [done|].
  apply StronglySorted_cons in Hs as [Hc _].
  pose proof (proj1 (Forall_forall _ _) Hc r Hr). simpl in *. lia.
Qed.

Lemma saveImage_newest_is_cover_witness :
  getGalleryCoverImage (saveImage tripDB (mkImage "n" "Trip" 30) Committed).1
    "Trip" Committed = Resolved (Some (mkImage "n" "Trip" 30)).
Proof.
  apply (saveImage_newest_is_cover tripDB (mkImage "n" "Trip" 30)).
  vm_compute. repeat constructor.
Defined.

(** ** The list on screen and the store (GalleryView) *)

Lemma keyed_image db i r :
  keyed_by_id db → images db !! i = Some r → GalleryImage.id r = i.
Proof. intros [_ H]. apply H. Qed.






Lemma createGallery_roundtrip_witness :
  ∃ db' g,
    createGallery tripDB (2 ^ 52) 40 41 "Rome" None Committed
      = (db', Resolved g) ∧
    galleries db' !! "Trip" = galleries tripDB !! "Trip".
Proof.
  destruct (createGallery_roundtrip tripDB (2 ^ 52) 40 41 "Rome" None)
    as (db' & g & Hc & Hg & _ & _ & Hframe).
  exists db', g. split; [exact Hc|].
  apply Hframe. rewrite Hg. vm_compute. discriminate.
Defined.

(** ** The list on screen and the store (GalleryOverview) *)

Lemma promise_all_resolved {A B} (f : A → promise B) (g : A → B)
    (l : list A) :
  (∀ a, a ∈ l → f a = Resolved (g a)) →
  promise_all (f <$> l) = Resolved (g <$> l).
Proof.
  induction l as [|a l IH]; intros H; [done|].
  csimpl. rewrite (H a) by (by left).
  rewrite IH; [done|]. intros b Hb. apply H. by right.
Qed.

Lemma overview_eq db : overview db = metaOf db <$> allGalleries db.
Proof.
  unfold overview, loadGalleries, loadAllGalleries.
  rewrite (promise_all_resolved _ (metaOf db)); [done|].
  intros g _. unfold withMeta, getGalleryImageCount, getGalleryCoverImage,
    loadGalleryImages, metaOf.
  by destruct (galleryImages db (Gallery.id g)).
Qed.

Lemma filter_fmap_list {A B} (f : A → B) (P : B → Prop)
    `{∀ y, Decision (P y)} (l : list A) :
  filter P (f <$> l) = f <$> filter (λ x, P (f x)) l.
Proof.
  induction l as [|x l IH]; [done|].
  rewrite fmap_cons, !filter_cons. simpl.
  destruct (decide (P (f x))); by rewrite IH.
Qed.


(** X19. [handleDeleteGallery] keeps the overview in step with the store:
    started from a freshly loaded overview in a state reached from the
    empty database, the entries it leaves (galleries, counts and covers)
    are those a reload would show, whether the delete commits or aborts. *)
Theorem handleDeleteGallery_sync (history : list op) (G : string)
    (o : txn_result) :
  (handleDeleteGallery (run emptyDB history)
     (overview (run emptyDB history)) G o).2
  = overview (handleDeleteGallery (run emptyDB history)
                (overview (run emptyDB history)) G o).1.
Proof.
  set (db := run emptyDB history).
  assert (keyed_by_id db) as Hk by apply keyed_by_id_run, keyed_by_id_empty.
  destruct o; [|done].
  unfold handleDeleteGallery.
  change (deleteGallery db G Committed)
    with ((deleteGallery db G Committed).1, @Resolved unit tt).
  cbn [fst snd]. set (db' := (deleteGallery db G Committed).1).
  rewrite !overview_eq, filter_fmap_list. cbn [gallery metaOf].
  assert (filter (λ g, Gallery.id g ≠ G) (allGalleries db) = allGalleries db')
    as <-.
  { apply allGalleries_unique.
    - apply (keyed_by_id_step db (DeleteGallery G Committed) Hk).
    - by apply StronglySorted_filter, allGalleries_sorted.
    - intros g. rewrite list_elem_of_filter, elem_of_allGalleries.
      destruct Hk as [Hg _]. simpl. split.
      + intros [Hne [i Hi]]. exists i. rewrite lookup_delete_ne; [done|].
        intros <-. by rewrite (Hg _ _ Hi) in Hne.
      + intros [i [Hne Hi]%lookup_delete_Some]. split; [|eauto].
        by rewrite (Hg _ _ Hi). }
  apply Forall_fmap_ext_1, Forall_forall.
  intros g [Hne _]%list_elem_of_filter.
  unfold metaOf, galleryImages, openCursor_only, index_count, db'.
  by rewrite (deleteGallery_index_other db G (Gallery.id g) Hne).
Qed.



(** ** The reference selection (ImageGeneratorModal) *)

Lemma filter_ne_fresh (id : string) (l : list string) :
  id ∉ l → filter (λ i, i ≠ id) l = l.
Proof.
  induction l as [|x l IH]; intros Hid; [done|].
  apply not_elem_of_cons in Hid as [Hne Hid].
  rewrite filter_cons_True by congruence. by rewrite IH.
Qed.

Lemma toggleRef_invariant (prev : list string) (id : string) :
  NoDup prev → (length prev ≤ 3)%nat →
  NoDup (toggleRef prev id) ∧ (length (toggleRef prev id) ≤ 3)%nat.
Proof.
  intros Hnd Hlen. unfold toggleRef.
  destruct (bool_decide_reflect (id ∈ prev)) as [Hin|Hout].
  - split; [by apply NoDup_filter|].
    pose proof (length_filter (λ i, i ≠ id) prev). lia.
  - destruct (Nat.ltb_spec (length prev) 3) as [Hlt|Hge]; [|done].
    split.
    + apply NoDup_app. split; [done|]. split; [|apply NoDup_singleton].
      intros x Hx ->%list_elem_of_singleton. done.
    + rewrite length_app. simpl. lia.
Qed.

(** X21. Whatever sequence of images the user clicks after the modal is
    reset, the selection of reference images never holds an id twice and
    never holds more than three ids. *)
Theorem toggleRef_at_most_three (clicks : list string) :
  NoDup (foldl toggleRef [] clicks) ∧
  (length (foldl toggleRef [] clicks) ≤ 3)%nat.
Proof.
  assert (∀ sel, NoDup sel → (length sel ≤ 3)%nat →
                 NoDup (foldl toggleRef sel clicks) ∧
                 (length (foldl toggleRef sel clicks) ≤ 3)%nat) as H.
  { induction clicks as [|c clicks IH]; intros sel Hnd Hlen; [done|].
    simpl. destruct (toggleRef_invariant sel c Hnd Hlen). by apply IH. }
  apply H; [constructor | simpl; lia].
Qed.

(** X22. Clicking a selected image removes it from the selection and keeps
    the others in their order; clicking an unselected image adds it at the
    end while fewer than three are selected, and a second click then
    restores the selection; with three selected the click is ignored. *)
Theorem toggleRef_cases (prev : list string) (id : string) :
  (id ∈ prev →
   (id ∉ toggleRef prev id) ∧
   toggleRef prev id = filter (λ i, i ≠ id) prev) ∧
  (id ∉ prev → (length prev < 3)%nat →
   toggleRef prev id = prev ++ [id] ∧
   toggleRef (toggleRef prev id) id = prev) ∧
  (id ∉ prev → (3 ≤ length prev)%nat → toggleRef prev id = prev).
Proof.
  split; [|split].
  - intros Hin. unfold toggleRef. rewrite bool_decide_eq_true_2 by done.
    split; [|done]. by intros [? _]%list_elem_of_filter.
  - intros Hout Hlt.
    assert (toggleRef prev id = prev ++ [id]) as Hadd.
    { unfold toggleRef. rewrite bool_decide_eq_false_2 by done.
      by destruct (Nat.ltb_spec (length prev) 3); [|lia]. }
    split; [done|]. rewrite Hadd. unfold toggleRef.
    rewrite bool_decide_eq_true_2
      by (apply elem_of_app; right; by apply list_elem_of_singleton).
    rewrite filter_app, filter_ne_fresh by done.
    rewrite filter_cons_False by (by intros ?). by rewrite app_nil_r.
  - intros Hout Hge. unfold toggleRef.
    rewrite bool_decide_eq_false_2 by done.
    by destruct (Nat.ltb_spec (length prev) 3); [lia|].
Qed.

Lemma toggleRef_cases_witness :
  toggleRef ["a"; "b"; "c"] "b" = ["a"; "c"] ∧
  toggleRef (toggleRef ["a"] "b") "b" = ["a"] ∧
  toggleRef ["a"; "b"; "c"] "d" = ["a"; "b"; "c"].
Proof.
  split; [|split].
  - rewrite (proj2 (proj1 (toggleRef_cases ["a"; "b"; "c"] "b")
                      ltac:(apply elem_of_cons; right;
                            apply elem_of_cons; by left))).
    vm_compute. reflexivity.
  - apply (proj1 (proj2 (toggleRef_cases ["a"] "b"))).
    + intros [H|H]%elem_of_cons; [discriminate | by apply elem_of_nil in H].
    + simpl. lia.
  - apply (proj2 (proj2 (toggleRef_cases ["a"; "b"; "c"] "d"))).
    + rewrite !elem_of_cons, elem_of_nil.
      intros [H|[H|[H|H]]]; try discriminate; done.
    + simpl. lia.
Defined.

(** X23. The reference image sent with a generation request is the first
    image of the gallery list, in display order, whose id is selected: the
    order in which the images were selected does not matter, and there is
    no reference exactly when no shown image has a selected id. *)
Theorem primaryRef_first_selected (imgs : list GalleryImage.t)
    (sel sel' : list string) :
  ((∀ i, i ∈ sel ↔ i ∈ sel') →
   primaryRef (refImages imgs sel) = primaryRef (refImages imgs sel')) ∧
  (primaryRef (refImages imgs sel) = None ↔
   ∀ img, img ∈ imgs → GalleryImage.id img ∉ sel) ∧
  (∀ p, primaryRef (refImages imgs sel) = Some p →
        ∃ before after,
          imgs = before ++ p :: after ∧ GalleryImage.id p ∈ sel ∧
          ∀ x, x ∈ before → GalleryImage.id x ∉ sel).
Proof.
  unfold primaryRef, refImages. split; [|split].
  - intros Hsame. f_equal. apply list_filter_iff. intros x. apply Hsame.
  - induction imgs as [|x imgs IH]; simpl.
    { split; [|done]. intros _ img Himg. by apply elem_of_nil in Himg. }
    rewrite filter_cons. destruct (decide (GalleryImage.id x ∈ sel)) as [Hx|Hx].
    + split; [done|]. intros H. destruct (H x); [by left|done].
    + rewrite IH. split.
      * intros H img [->|Himg]%elem_of_cons; [done | by apply H].
      * intros H img Himg. apply H. by right.
  - induction imgs as [|x imgs IH]; intros p; [done|].
    rewrite filter_cons. destruct (decide (GalleryImage.id x ∈ sel)) as [Hx|Hx].
    + intros [= <-]. exists [], imgs. split; [done|]. split; [done|].
      intros y Hy. by apply elem_of_nil in Hy.
    + intros (before & after & -> & Hp & Hb)%IH.
      exists (x :: before), after. split; [done|]. split; [done|].
      intros y [->|Hy]%elem_of_cons; [done | by apply Hb].
Qed.

Lemma primaryRef_first_selected_witness :
  primaryRef (refImages (galleryImages tripDB "Trip") ["a"; "c"])
  = primaryRef (refImages (galleryImages tripDB "Trip") ["c"; "a"]).
Proof.
  apply (proj1 (primaryRef_first_selected (galleryImages tripDB "Trip")
                  ["a"; "c"] ["c"; "a"])).
  intros i. rewrite !elem_of_cons, !elem_of_nil. tauto.
Defined.

(** ** The download file name (ImageViewerModal) *)









(** ** Opening the database *)

#[local] Set Warnings "-clear-no-such-hyp".

Lemma onupgradeneeded_lookup (stores : gmap string (gset string))
    (transaction : bool) (name : string) :
  onupgradeneeded stores transaction !! name =
  if decide (name = IMAGES_STORE) then
    Some (match stores !! IMAGES_STORE with
          | None => {["timestamp"; "galleryId"]}
          | Some indexNames =>
              if transaction then indexNames ∪ {["galleryId"]}
              else indexNames
          end)
  else if decide (name = GALLERIES_STORE) then
    Some (default {["createdAt"]} (stores !! GALLERIES_STORE))
  else stores !! name.
Proof.
  assert (IMAGES_STORE ≠ GALLERIES_STORE) as Hne by discriminate.
  unfold onupgradeneeded.
  set (withImages := match stores !! IMAGES_STORE with
                     | None => _ | Some _ => _ end).
  assert (withImages !! GALLERIES_STORE = stores !! GALLERIES_STORE) as Hg.
  { unfold withImages. destruct (stores !! IMAGES_STORE) as [idx|];
      [destruct transaction; [destruct (bool_decide _)|]|];
      by rewrite ?lookup_insert_ne. }
  assert (∀ n, n ≠ IMAGES_STORE → withImages !! n = stores !! n) as Hother.
  { intros n Hn. unfold withImages.
    destruct (stores !! IMAGES_STORE) as [idx|];
      [destruct transaction; [destruct (bool_decide _)|]|];
      by rewrite ?lookup_insert_ne. }
  assert (withImages !! IMAGES_STORE
          = Some (match stores !! IMAGES_STORE with
                  | None => {["timestamp"; "galleryId"]}
                  | Some indexNames =>
                      if transaction then indexNames ∪ {["galleryId"]}
                      else indexNames
                  end)) as Hi.
  { unfold withImages. destruct (stores !! IMAGES_STORE) as [idx|] eqn:Hidx.
    - destruct transaction; [|done].
      destruct (bool_decide_reflect ("galleryId" ∈ idx)) as [Hin|Hout].
      + rewrite Hidx. f_equal. set_solver.
      + by rewrite lookup_insert_eq.
    - by rewrite lookup_insert_eq. }
  rewrite Hg.
  destruct (decide (name = IMAGES_STORE)) as [->|Hn1].
  - destruct (stores !! GALLERIES_STORE);
      by rewrite ?lookup_insert_ne, Hi.
  - destruct (decide (name = GALLERIES_STORE)) as [->|Hn2].
    + destruct (stores !! GALLERIES_STORE) eqn:Hgs; simpl.
      * by rewrite Hg.
      * by rewrite lookup_insert_eq.
    + destruct (stores !! GALLERIES_STORE);
        rewrite ?lookup_insert_ne by done; by apply Hother.
Qed.

(** X25. The upgrade handler only adds: every object store present before
    it runs is present after it with at least the indexes it had, and an
    existing galleries store is left exactly as it is; running the handler
    a second time changes nothing. *)
Theorem onupgradeneeded_additive (stores : gmap string (gset string))
    (transaction : bool) :
  (∀ name indexNames,
     stores !! name = Some indexNames →
     ∃ indexNames',
       onupgradeneeded stores transaction !! name = Some indexNames' ∧
       indexNames ⊆ indexNames') ∧
  (∀ indexNames,
     stores !! GALLERIES_STORE = Some indexNames →
     onupgradeneeded stores transaction !! GALLERIES_STORE
       = Some indexNames) ∧
  onupgradeneeded (onupgradeneeded stores transaction) transaction
    = onupgradeneeded stores transaction.
Proof.
  assert (GALLERIES_STORE ≠ IMAGES_STORE) as Hne by discriminate.
  split; [|split].
  - intros name idx Hname. rewrite onupgradeneeded_lookup.
    destruct (decide (name = IMAGES_STORE)) as [->|Hn1].
    + rewrite Hname. eexists. split; [reflexivity|].
      destruct transaction; set_solver.
    + destruct (decide (name = GALLERIES_STORE)) as [->|Hn2].
      * rewrite Hname. by eexists.
      * by eexists.
  - intros idx Hg. rewrite onupgradeneeded_lookup.
    rewrite decide_False, decide_True by done. by rewrite Hg.
  - apply map_eq. intros name.
    rewrite (onupgradeneeded_lookup (onupgradeneeded stores transaction)).
    rewrite !onupgradeneeded_lookup.
    rewrite (decide_True (P := IMAGES_STORE = IMAGES_STORE)) by done.
    rewrite (decide_False (P := GALLERIES_STORE = IMAGES_STORE)) by done.
    rewrite (decide_True (P := GALLERIES_STORE = GALLERIES_STORE)) by done.
    destruct (decide (name = IMAGES_STORE)) as [->|Hn1].
    + f_equal. destruct transaction; [|done].
      destruct (stores !! IMAGES_STORE); set_solver.
    + by destruct (decide (name = GALLERIES_STORE)).
Qed.

Lemma onupgradeneeded_additive_witness :
  ∃ indexNames',
    onupgradeneeded {[IMAGES_STORE := {["timestamp"]}]} true !! IMAGES_STORE
      = Some indexNames' ∧
    ({["timestamp"]} : gset string) ⊆ indexNames'.
Proof.
  apply (proj1 (onupgradeneeded_additive
                  {[IMAGES_STORE := {["timestamp"]}]} true)
           IMAGES_STORE {["timestamp"]}).
  apply lookup_singleton_eq.
Defined.

Lemma onupgradeneeded_empty (transaction : bool) :
  onupgradeneeded ∅ transaction
  = {[IMAGES_STORE := {["timestamp"; "galleryId"]};
      GALLERIES_STORE := {["createdAt"]}]}.
Proof.
  assert (GALLERIES_STORE ≠ IMAGES_STORE) as Hne by discriminate.
  apply map_eq. intros name.
  rewrite onupgradeneeded_lookup, !lookup_empty.
  destruct (decide (name = IMAGES_STORE)) as [->|Hn1].
  { by rewrite lookup_insert_eq. }
  rewrite lookup_insert_ne by done.
  destruct (decide (name = GALLERIES_STORE)) as [->|Hn2].
  { by rewrite lookup_singleton_eq. }
  by rewrite lookup_singleton_ne.
Qed.

(** X26. After the upgrade handler has run with its transaction, the
    images store exists and has the 'galleryId' index and the galleries
    store exists, whatever the schema was before; from no schema at all and
    from the schema of version 1 (an images store with the 'timestamp'
    index only) the result is the same: images with 'timestamp' and
    'galleryId', galleries with 'createdAt'. *)
Theorem onupgradeneeded_schema (stores : gmap string (gset string)) :
  (∃ indexNames,
     onupgradeneeded stores true !! IMAGES_STORE = Some indexNames ∧
     "galleryId" ∈ indexNames) ∧
  is_Some (onupgradeneeded stores true !! GALLERIES_STORE) ∧
  (∀ transaction,
     onupgradeneeded ∅ transaction
     = {[IMAGES_STORE := {["timestamp"; "galleryId"]};
         GALLERIES_STORE := {["createdAt"]}]}) ∧
  onupgradeneeded {[IMAGES_STORE := {["timestamp"]}]} true
    = onupgradeneeded ∅ true.
Proof.
  assert (GALLERIES_STORE ≠ IMAGES_STORE) as Hne by discriminate.
  split; [|split; [|split]].
  - rewrite onupgradeneeded_lookup, decide_True by done.
    eexists. split; [reflexivity|].
    destruct (stores !! IMAGES_STORE); set_solver.
  - rewrite onupgradeneeded_lookup, decide_False, decide_True by done.
    by eexists.
  - apply onupgradeneeded_empty.
  - apply map_eq. intros name. rewrite !onupgradeneeded_lookup.
    rewrite lookup_singleton_eq, !lookup_empty.
    destruct (decide (name = IMAGES_STORE)) as [->|Hn1]; [done|].
    destruct (decide (name = GALLERIES_STORE)); [done|].
    apply lookup_singleton_ne. congruence.
Qed.

(** X27. [openDB] opens at most once: after a call that resolved, every
    later call resolves with the cached connection, whatever the engine
    would do, and leaves version and schema alone; a call that rejects
    caches nothing and changes nothing, so the next call tries again; a
    first successful open leaves the database at version 2, and on a
    database that did not exist with the schema of X26. *)
Theorem openDB_once (s : Session) (e : open_event) :
  ((openDB s e).2 = Resolved tt →
   dbInstance (openDB s e).1 = true ∧
   ∀ e', openDB (openDB s e).1 e' = ((openDB s e).1, Resolved tt)) ∧
  ((openDB s e).2 = Rejected → (openDB s e).1 = s) ∧
  (dbInstance s = false → (openDB s e).2 = Resolved tt →
   storedVersion (openDB s e).1 = DB_VERSION ∧
   (storedVersion s = 0%N → objectStores s = ∅ →
    objectStores (openDB s e).1
    = {[IMAGES_STORE := {["timestamp"; "galleryId"]};
        GALLERIES_STORE := {["createdAt"]}]})).
Proof.
  unfold openDB.
  destruct (dbInstance s) eqn:Hd.
  { split; [|split]; try done. intros _. split; [done|].
    intros e'. simpl. by rewrite Hd. }
  destruct e; [done|].
  destruct (N.ltb_spec DB_VERSION (storedVersion s)) as [Hlater|Hle]; [done|].
  split; [|split]; try done.
  intros _ _. split; [done|]. intros Hv Hs. cbn [objectStores fst].
  rewrite Hv, Hs. cbn [N.ltb N.compare DB_VERSION].
  apply onupgradeneeded_empty.
Qed.

Lemma openDB_once_witness :
  let fresh := {| dbInstance := false; storedVersion := 0;
                  objectStores := ∅ |} in
  openDB (openDB fresh OpenProceeds).1 OpenFails
    = ((openDB fresh OpenProceeds).1, Resolved tt) ∧
  (openDB fresh OpenFails).1 = fresh.
Proof.
  intros fresh. split.
  - apply (proj1 (openDB_once fresh OpenProceeds)). reflexivity.
  - apply (proj1 (proj2 (openDB_once fresh OpenFails))). reflexivity.
Defined.

(** ** Generated identifiers *)


(** ** What a listing contains *)

(** X29. In every state reached from the empty database, the list
    [loadGalleryImages(G)] returns holds no id twice, and every image in it
    belongs to G and is the record a get by its id returns. *)
Theorem loadGalleryImages_listing (history : list op) (G : string) :
  ∃ imgs,
    loadGalleryImages (run emptyDB history) G Committed = Resolved imgs ∧
    NoDup (GalleryImage.id <$> imgs) ∧
    Forall (λ r, GalleryImage.galleryId r = G ∧
                 store_get (images (run emptyDB history)) (GalleryImage.id r)
                   = idb_value r) imgs.
Proof.
  set (db := run emptyDB history).
  assert (keyed_by_id db) as Hk by apply keyed_by_id_run, keyed_by_id_empty.
  exists (galleryImages db G). split; [done|]. split.
  - unfold galleryImages. rewrite js_sort_Permutation.
    rewrite <- list_fmap_compose.
    rewrite (Forall_fmap_ext_1 _ fst).
    + apply openCursor_only_NoDup_keys.
    + apply Forall_forall. intros [i r] [Hi _]%elem_of_openCursor_only.
      simpl. by apply (keyed_image db).
  - apply Forall_forall. intros r [i [Hi Hg]]%elem_of_galleryImages.
    split; [done|]. unfold store_get.
    by rewrite (keyed_image db _ _ Hk Hi), Hi.
Qed.

(** ** Renaming a gallery (GalleryView) *)

(** X30. Renaming a gallery from its view, where the view holds the stored
    gallery's id and [createdAt], keeps the order of [loadAllGalleries()]
    (the same ids in the same order) and the images store, whether the
    update commits, aborts or is skipped; when it commits, the stored
    record is the view's record with the trimmed name and the clock
    reading as [updatedAt]. *)
Theorem handleSaveTitle_keeps_order (history : list op) (g stored : Gallery.t)
    (editedName trimmed : string) (now : Z) (o : txn_result) :
  galleries (run emptyDB history) !! Gallery.id g = Some stored →
  Gallery.createdAt stored = Gallery.createdAt g →
  Gallery.id <$> allGalleries
                   (handleSaveTitle (run emptyDB history) g editedName
                      trimmed now o).1
    = Gallery.id <$> allGalleries (run emptyDB history) ∧
  images (handleSaveTitle (run emptyDB history) g editedName trimmed now o).1
    = images (run emptyDB history) ∧
  (trimmed ≠ ""%string → editedName ≠ Gallery.name g →
   loadGallery
     (handleSaveTitle (run emptyDB history) g editedName trimmed now
        Committed).1 (Gallery.id g) Committed
   = Resolved (Some {| Gallery.id := Gallery.id g;
                       Gallery.name := trimmed;
                       Gallery.description := Gallery.description g;
                       Gallery.coverImageId := Gallery.coverImageId g;
                       Gallery.createdAt := Gallery.createdAt g;
                       Gallery.updatedAt := now |})).
Proof.
  set (db := run emptyDB history). intros Hstored Hcreated.
  assert (keyed_by_id db) as Hk by apply keyed_by_id_run, keyed_by_id_empty.
  unfold handleSaveTitle.
  split; [|split].
  2: { destruct (decide _); [destruct o|]; done. }
  2: { intros H1 H2. rewrite decide_True by done.
       unfold loadGallery, store_get. simpl. by rewrite lookup_insert_eq. }
  destruct (decide _) as [_|_]; [|done]. destruct o; [|done].
  set (passed := {| Gallery.id := Gallery.id g; Gallery.name := trimmed |}).
  set (new := stamp passed now).
  set (f := λ x : Gallery.t,
              if decide (Gallery.id x = Gallery.id g) then new else x).
  assert (∀ x, x ∈ allGalleries db →
               Gallery.id (f x) = Gallery.id x ∧
               Gallery.createdAt (f x) = Gallery.createdAt x) as Hf.
  { intros x [i Hi]%elem_of_allGalleries. unfold f.
    destruct (decide _) as [Hid|]; [|done]. split; [done|].
    destruct Hk as [Hg _]. rewrite <- (Hg _ _ Hi) in Hi.
    rewrite Hid, Hstored in Hi. injection Hi as <-. by simpl. }
  assert (f <$> allGalleries db
          = allGalleries (updateGallery db passed now Committed).1) as <-.
  { apply allGalleries_unique.
    - apply (keyed_by_id_step db (UpdateGallery passed now Committed) Hk).
    - eapply StronglySorted_fmap_elem; [|by apply allGalleries_sorted].
      intros a b Ha Hb. unfold gallery_order, newest_first.
      destruct (Hf a Ha) as [-> ->], (Hf b Hb) as [-> ->]. done.
    - intros y. rewrite list_elem_of_fmap.
      destruct Hk as [Hg _]. simpl. split.
      + intros [x [-> [i Hi]%elem_of_allGalleries]]. unfold f.
        destruct (decide _) as [Hid|Hid].
        * exists (Gallery.id g). apply lookup_insert_eq.
        * exists i. rewrite lookup_insert_ne; [done|].
          intros Heq. apply Hid. by rewrite (Hg _ _ Hi).
      + intros [i [[_ <-]|[Hne Hi]]%lookup_insert_Some].
        * exists stored. split.
          -- unfold f. by rewrite decide_True by apply (Hg _ _ Hstored).
          -- apply elem_of_allGalleries. eauto.
        * exists y. split.
          -- unfold f. rewrite decide_False; [done|].
             by rewrite (Hg _ _ Hi).
          -- apply elem_of_allGalleries. eauto. }
  rewrite <- list_fmap_compose. apply Forall_fmap_ext_1, Forall_forall.
  intros x Hx. simpl. by destruct (Hf x Hx) as [-> _].
Qed.

Lemma handleSaveTitle_keeps_order_witness :
  Gallery.id <$> allGalleries
                   (handleSaveTitle tripDB (tripGallery "Trip") "Trip 2 "
                      "Trip 2" 50 Committed).1
  = Gallery.id <$> allGalleries tripDB.
Proof.
  apply (handleSaveTitle_keeps_order
           [UpdateGallery (tripGallery "Trip") 10 Committed;
            UpdateGallery (tripGallery "Home") 11 Committed;
            SaveImages [mkImage "a" "Trip" 21; mkImage "b" "Trip" 22;
                        mkImage "c" "Trip" 23] Committed;
            SaveImage (mkImage "h" "Home" 24) Committed]
           (tripGallery "Trip") (stamp (tripGallery "Trip") 10)
           "Trip 2 " "Trip 2" 50 Committed).
  - vm_compute. reflexivity.
  - reflexivity.
Defined.
